(** * Heartbeat audio visualizer

    A shallow embedding of [src/heartbeat.tsx] (the current component) and of
    [src/heartbeat.jsx] (its first version, module [Legacy]), and the
    properties of the specification stated over it.

    ** Numbers

    Every JavaScript number is an IEEE-754 binary64.  Three readings are used,
    each where the code calls for it:

    - [bpm] and [beat] only ever hold integers ([parseInt], the range slider,
      the presets, [p + 1]); they are [Z].
    - Arithmetic on them whose exact value matters (the timer delay, the audio
      schedule, the throttle factor) is done in [float], the kernel's
      binary64, so that [vm_compute] returns the very double the engine does.
    - The waveform is binary64 as well: [%] is the exact truncated remainder
      of two doubles ([JS.fmod]), and [Math.sin], which ECMAScript leaves to
      the engine, is a parameter of [getEKGY]. *)

From Stdlib Require Import ZArith List Bool Lia String Ascii.
From Stdlib Require Import DecimalString Floats.
Import ListNotations.

(* Decimal literals such as [0.13] denote the nearest binary64, as in the
   source. *)
Set Warnings "-inexact-float".

Local Open Scope Z_scope.

(** ** JavaScript numbers and strings *)

Module JS.

(** [Number(z)] for an integer [z]: the nearest binary64, ties to even. *)
Definition Z2F (z : Z) : float :=
  SF2Prim (binary_normalize prec emax z 0 false).

(** [Math.floor] and [Math.ceil] of a finite double, as an integer.  The value
    of a finite double is [m * 2^e], signed; shifting by a negative [e] rounds
    towards minus infinity.  NaN and the infinities are sent to [0]: no call
    below reaches them. *)
Definition floor (x : float) : Z :=
  match Prim2SF x with
  | S754_finite s m e => Z.shiftl (if s then Zneg m else Zpos m) e
  | _ => 0
  end.

Definition ceil (x : float) : Z := - floor (- x)%float.

(** [Object.is] on [number | null], the comparison React applies to the
    dependencies of an effect. *)
Definition Object_is (a b : option float) : bool :=
  match a, b with
  | Some x, Some y => Leibniz.eqb x y
  | None, None => true
  | _, _ => false
  end.

(** *** Exact values

    A finite double is an integer multiple of [2^-1074]; [units] is that
    integer, the exact value in units of the smallest positive double. *)
Definition units (x : float) : option Z :=
  match Prim2SF x with
  | S754_zero _ => Some 0
  | S754_finite s m e => Some ((if s then Zneg m else Zpos m) * 2 ^ (e + 1074))
  | _ => None
  end.

Definition signbit (x : float) : bool :=
  match Prim2SF x with
  | S754_zero s | S754_infinity s | S754_finite s _ _ => s
  | S754_nan => false
  end.

(** The double of [r] units, for an [r >= 0] that is one. *)
Definition of_units (r : Z) : float :=
  abs (SF2Prim (binary_normalize prec emax r (-1074) false)).

(** [n % d] on numbers: NaN for a dividend that is not finite or a divisor
    that is zero or NaN, the dividend itself for an infinite divisor;
    otherwise the remainder of the division truncated towards zero, which is
    a double (no rounding takes place) and has the sign of the dividend. *)
Definition fmod (n d : float) : float :=
  match units n, units d with
  | Some a, Some b =>
      if b =? 0 then nan
      else let r := of_units (Z.abs (Z.rem a b)) in
           if signbit n then (- r)%float else r
  | Some _, None => if is_nan d then nan else n
  | None, _ => nan
  end.

(** *** [parseInt (s, 10)]

    Leading white space is skipped, one sign is read, then the longest run of
    decimal digits; the result is NaN when there is none, and otherwise the
    double nearest to the integer the digits denote.  The text is held as its
    UTF-8 bytes; the white space of ECMAScript (WhiteSpace and
    LineTerminator) is TAB, LF, VT, FF, CR, SP, U+00A0, U+1680, U+2000 to
    U+200A, U+2028, U+2029, U+202F, U+205F, U+3000 and U+FEFF.  (For more
    than 20 significant digits an engine may read the digits after the 20th
    as zeros; such a number is at least [10^20] either way.) *)
Definition isWhiteSpace1 (c : ascii) : bool :=
  match nat_of_ascii c with
  | 9 | 10 | 11 | 12 | 13 | 32 => true
  | _ => false
  end%nat.

Definition isWhiteSpace2 (c1 c2 : ascii) : bool :=
  ((nat_of_ascii c1 =? 194) && (nat_of_ascii c2 =? 160))%nat.

Definition isWhiteSpace3 (c1 c2 c3 : ascii) : bool :=
  let '(a, b, c) := (nat_of_ascii c1, nat_of_ascii c2, nat_of_ascii c3) in
  ((a =? 225) && (b =? 154) && (c =? 128)
   || (a =? 226) && (b =? 128)
      && ((128 <=? c) && (c <=? 138) || (c =? 168) || (c =? 169)
          || (c =? 175))
   || (a =? 226) && (b =? 129) && (c =? 159)
   || (a =? 227) && (b =? 128) && (c =? 128)
   || (a =? 239) && (b =? 187) && (c =? 191))%nat.

Fixpoint trimStart (s : string) : string :=
  match s with
  | String c1 s1 =>
      if isWhiteSpace1 c1 then trimStart s1
      else
        match s1 with
        | String c2 s2 =>
            if isWhiteSpace2 c1 c2 then trimStart s2
            else
              match s2 with
              | String c3 s3 =>
                  if isWhiteSpace3 c1 c2 c3 then trimStart s3 else s
              | EmptyString => s
              end
        | EmptyString => s
        end
  | EmptyString => s
  end.

Definition digitValue (c : ascii) : option Z :=
  let k := nat_of_ascii c in
  if ((48 <=? k) && (k <=? 57))%nat then Some (Z.of_nat (k - 48)) else None.

Fixpoint digits (s : string) (acc : option Z) : option Z :=
  match s with
  | String c s' =>
      match digitValue c with
      | Some d =>
          digits s' (Some (10 * match acc with Some a => a | None => 0 end + d))
      | None => acc
      end
  | EmptyString => acc
  end.

(** What [parseInt] can return: NaN, an infinity, or a double that is an
    integer, held as that integer ([-0] as [0]: the two compare alike). *)
Inductive Number := NaN | Infinite (negative : bool) | Int (z : Z).

(** The double nearest to the integer [z], ties to even. *)
Definition toNumber (z : Z) : Number :=
  let f := Z2F z in
  if is_infinity f then Infinite (z <? 0) else Int (floor f).

Definition parseInt (s : string) : Number :=
  match trimStart s with
  | String "-" s' =>
      match digits s' None with Some z => toNumber (- z) | None => NaN end
  | String "+" s' =>
      match digits s' None with Some z => toNumber z | None => NaN end
  | s' => match digits s' None with Some z => toNumber z | None => NaN end
  end.

(** [String(z)] for an integer [z] with [|z| < 10^21], where it is the
    decimal digits. *)
Definition String_of (z : Z) : string := NilZero.string_of_int (Z.to_int z).

End JS.

(** ** [getBpmZone] *)

Record BpmZone := { label : string; color : string }.

Definition getBpmZone (bpm : Z) : BpmZone :=
  if bpm <? 60 then {| label := "Bradycardia"; color := "#5b9bd5" |}
  else if bpm <=? 100 then {| label := "Resting"; color := "#6abf69" |}
  else if bpm <=? 140 then {| label := "Moderate"; color := "#d4a843" |}
  else if bpm <=? 170 then {| label := "Vigorous"; color := "#d97a3e" |}
  else {| label := "Maximum"; color := "#d94040" |}.

Definition MIN_BPM : Z := 30.
Definition MAX_BPM : Z := 220.

(** ** The sound synthesizer: [createHeartbeatSound]

    A call builds fresh audio nodes and issues a fixed sequence of commands on
    them.  The embedding returns that sequence, in source order.  The nodes
    are named after the local variables that hold them ([nSrc] is the buffer
    source [n]); the samples of the noise buffer are random and not
    modelled. *)

Module Audio.

Inductive Node :=
  osc1 | g1 | oSub | gSub | nSrc | nf | ng | o2 | g2 | masterGain | master
| destination.

Inductive Param := frequency | gain.

Inductive Cmd :=
| setType (nd : Node) (type : string)
| setValue (nd : Node) (p : Param) (value : float)
| setBuffer (nd : Node)
| setValueAtTime (nd : Node) (p : Param) (value time : float)
| linearRampToValueAtTime (nd : Node) (p : Param) (value time : float)
| exponentialRampToValueAtTime (nd : Node) (p : Param) (value time : float)
| connect (src dst : Node)
| start (nd : Node) (time : float)
| stop (nd : Node) (time : float)
| onended (nd : Node) (disconnects : list Node).

Module AUDIO.
Local Open Scope float_scope.
Definition S1_FREQ_START := 55.
Definition S1_FREQ_END := 25.
Definition S1_ATTACK := 0.008.
Definition S1_DECAY := 0.14.
Definition S1_DURATION := 0.16.
Definition SUB_FREQ := 32.
Definition SUB_ATTACK := 0.012.
Definition SUB_DECAY := 0.11.
Definition SUB_DURATION := 0.13.
Definition SUB_GAIN := 0.6.
Definition NOISE_DURATION := 0.02.
Definition NOISE_DECAY := 0.03.
Definition NOISE_CUTOFF := 150.
Definition NOISE_GAIN := 0.4.
Definition S2_DELAY := 0.13.
Definition S2_FREQ_START := 75.
Definition S2_FREQ_END := 35.
Definition S2_ATTACK := 0.008.
Definition S2_DECAY := 0.1.
Definition S2_DURATION := 0.12.
Definition S2_GAIN := 0.55.
Definition MASTER_GAIN := 0.7.
End AUDIO.

Section Schedule.
Local Open Scope float_scope.
Import AUDIO.

(** [heartbeat.tsx]: the sound of one beat triggered at [time]. *)
Definition createHeartbeatSound (time : float) : list Cmd :=
  [ (* S1 - primary "lub" sound *)
    setType osc1 "sine";
    setValueAtTime osc1 frequency S1_FREQ_START time;
    exponentialRampToValueAtTime osc1 frequency S1_FREQ_END (time + S1_DECAY);
    setValueAtTime g1 gain 0 time;
    linearRampToValueAtTime g1 gain 1 (time + S1_ATTACK);
    exponentialRampToValueAtTime g1 gain 0.001 (time + S1_DECAY);
    connect osc1 g1;
    connect g1 masterGain;
    start osc1 time;
    stop osc1 (time + S1_DURATION);
    onended osc1 [osc1; g1];
    (* Sub-bass reinforcement *)
    setType oSub "sine";
    setValueAtTime oSub frequency SUB_FREQ time;
    setValueAtTime gSub gain 0 time;
    linearRampToValueAtTime gSub gain SUB_GAIN (time + SUB_ATTACK);
    exponentialRampToValueAtTime gSub gain 0.001 (time + SUB_DECAY);
    connect oSub gSub;
    connect gSub masterGain;
    start oSub time;
    stop oSub (time + SUB_DURATION);
    onended oSub [oSub; gSub];
    (* Noise transient for thump texture *)
    setBuffer nSrc;
    setType nf "lowpass";
    setValue nf frequency NOISE_CUTOFF;
    setValueAtTime ng gain NOISE_GAIN time;
    exponentialRampToValueAtTime ng gain 0.001 (time + NOISE_DECAY);
    connect nSrc nf;
    connect nf ng;
    connect ng masterGain;
    start nSrc time;
    stop nSrc (time + NOISE_DECAY);
    onended nSrc [nSrc; nf; ng];
    (* S2 - secondary "dub" sound *)
    setType o2 "sine";
    setValueAtTime o2 frequency S2_FREQ_START (time + S2_DELAY);
    exponentialRampToValueAtTime o2 frequency S2_FREQ_END
      (time + S2_DELAY + S2_DECAY);
    setValueAtTime g2 gain 0 (time + S2_DELAY);
    linearRampToValueAtTime g2 gain S2_GAIN (time + S2_DELAY + S2_ATTACK);
    exponentialRampToValueAtTime g2 gain 0.001 (time + S2_DELAY + S2_DECAY);
    connect o2 g2;
    connect g2 masterGain;
    start o2 (time + S2_DELAY);
    stop o2 (time + S2_DELAY + S2_DURATION);
    onended o2 [o2; g2] ].

(** [heartbeat.jsx]: the first version, with a master gain of its own per
    beat, literal constants and no [onended] handlers. *)
Definition createHeartbeatSound_jsx (time : float) : list Cmd :=
  let dl := 0.13 in
  [ setValueAtTime master gain 0.7 time;
    connect master destination;
    setType osc1 "sine";
    setValueAtTime osc1 frequency 55 time;
    exponentialRampToValueAtTime osc1 frequency 25 (time + 0.14);
    setValueAtTime g1 gain 0 time;
    linearRampToValueAtTime g1 gain 1 (time + 0.008);
    exponentialRampToValueAtTime g1 gain 0.001 (time + 0.14);
    connect osc1 g1;
    connect g1 master;
    start osc1 time;
    stop osc1 (time + 0.16);
    setType oSub "sine";
    setValueAtTime oSub frequency 32 time;
    setValueAtTime gSub gain 0 time;
    linearRampToValueAtTime gSub gain 0.6 (time + 0.012);
    exponentialRampToValueAtTime gSub gain 0.001 (time + 0.11);
    connect oSub gSub;
    connect gSub master;
    start oSub time;
    stop oSub (time + 0.13);
    setBuffer nSrc;
    setType nf "lowpass";
    setValue nf frequency 150;
    setValueAtTime ng gain 0.4 time;
    exponentialRampToValueAtTime ng gain 0.001 (time + 0.03);
    connect nSrc nf;
    connect nf ng;
    connect ng master;
    start nSrc time;
    stop nSrc (time + 0.03);
    setType o2 "sine";
    setValueAtTime o2 frequency 75 (time + dl);
    exponentialRampToValueAtTime o2 frequency 35 (time + dl + 0.1);
    setValueAtTime g2 gain 0 (time + dl);
    linearRampToValueAtTime g2 gain 0.55 (time + dl + 0.008);
    exponentialRampToValueAtTime g2 gain 0.001 (time + dl + 0.1);
    connect o2 g2;
    connect g2 master;
    start o2 (time + dl);
    stop o2 (time + dl + 0.12) ].

End Schedule.

(** Reading a schedule: when a node is started and stopped, and the
    automation of one of its parameters. *)
Definition Node_eqb (a b : Node) : bool :=
  match a, b with
  | osc1, osc1 | g1, g1 | oSub, oSub | gSub, gSub | nSrc, nSrc | nf, nf
  | ng, ng | o2, o2 | g2, g2 | masterGain, masterGain | master, master
  | destination, destination => true
  | _, _ => false
  end.

Definition Param_eqb (a b : Param) : bool :=
  match a, b with
  | frequency, frequency | gain, gain => true
  | _, _ => false
  end.

Fixpoint startTime (nd : Node) (cs : list Cmd) : option float :=
  match cs with
  | start nd' t :: cs' => if Node_eqb nd nd' then Some t else startTime nd cs'
  | _ :: cs' => startTime nd cs'
  | [] => None
  end.

Fixpoint stopTime (nd : Node) (cs : list Cmd) : option float :=
  match cs with
  | stop nd' t :: cs' => if Node_eqb nd nd' then Some t else stopTime nd cs'
  | _ :: cs' => stopTime nd cs'
  | [] => None
  end.

(** The automation of one parameter, as (kind, value, time) in issue order. *)
Inductive Ramp := SetAt | Linear | Exponential.

Fixpoint automation (nd : Node) (p : Param) (cs : list Cmd)
  : list (Ramp * float * float) :=
  match cs with
  | [] => []
  | c :: cs' =>
      let rest := automation nd p cs' in
      match c with
      | setValueAtTime nd' p' v t =>
          if Node_eqb nd nd' && Param_eqb p p' then (SetAt, v, t) :: rest
          else rest
      | linearRampToValueAtTime nd' p' v t =>
          if Node_eqb nd nd' && Param_eqb p p' then (Linear, v, t) :: rest
          else rest
      | exponentialRampToValueAtTime nd' p' v t =>
          if Node_eqb nd nd' && Param_eqb p p' then (Exponential, v, t) :: rest
          else rest
      | _ => rest
      end
  end.

End Audio.

(** ** The noise buffer cache: [getNoiseBuffer]

    The module-level variables [cachedNoiseBuffer] and [cachedSampleRate],
    and how many buffers [createBuffer] has made.  A buffer is known by the
    order of its creation, its length and its sample rate; its random samples
    are not modelled. *)

Module Noise.

Record AudioBuffer := {
  bufferId : nat;
  bufferSize : float;
  sampleRate : float
}.

Record Cache := {
  cachedNoiseBuffer : option AudioBuffer;
  cachedSampleRate : float;
  created : nat
}.

(** The module as loaded. *)
Definition empty : Cache :=
  {| cachedNoiseBuffer := None; cachedSampleRate := 0%float; created := 0 |}.

Definition regenerate (rate : float) (c : Cache) : AudioBuffer * Cache :=
  let b := {| bufferId := created c;
              bufferSize := (rate * Audio.AUDIO.NOISE_DURATION)%float;
              sampleRate := rate |} in
  (b, {| cachedNoiseBuffer := Some b; cachedSampleRate := rate;
         created := S (created c) |}).

(** [getNoiseBuffer (audioCtx)], on the sample rate of the context;
    [!==] on numbers is the negation of IEEE equality. *)
Definition getNoiseBuffer (rate : float) (c : Cache) : AudioBuffer * Cache :=
  match cachedNoiseBuffer c with
  | None => regenerate rate c
  | Some b =>
      if negb (cachedSampleRate c =? rate)%float then regenerate rate c
      else (b, c)
  end.

(** The cleanup of the mount effect: [cachedNoiseBuffer = null]. *)
Definition clear (c : Cache) : Cache :=
  {| cachedNoiseBuffer := None; cachedSampleRate := cachedSampleRate c;
     created := created c |}.

(** The cache after the beats of contexts with the given sample rates. *)
Definition beats (rates : list float) (c : Cache) : Cache :=
  fold_left (fun c r => snd (getNoiseBuffer r c)) rates c.

End Noise.

(** ** Unlocking audio: [unlockAudioContext]

    The page holds the listeners on [document.body] that are the [unlock]
    closure of one call, by event type, and counts the warm-ups played. *)

Module Unlock.

Inductive ContextState := suspended | running | closed.

Record Page := {
  state : ContextState;
  listeners : list string;
  warmUps : nat
}.

Definition events : list string := ["touchend"; "mousedown"; "keydown"]%string.

Definition unlockAudioContext (p : Page) : Page :=
  match state p with
  | suspended =>
      {| state := state p; listeners := listeners p ++ events;
         warmUps := warmUps p |}
  | _ => p
  end.

(** [unlock]: the warm-up, then [removeEventListener] for each of
    [events]. *)
Definition unlock (p : Page) : Page :=
  {| state := state p;
     listeners :=
       filter (fun l => negb (existsb (String.eqb l) events)) (listeners p);
     warmUps := S (warmUps p) |}.

(** An event of type [e] reaches [document.body]. *)
Definition dispatch (p : Page) (e : string) : Page :=
  if existsb (String.eqb e) (listeners p) then unlock p else p.

Definition fresh (s : ContextState) : Page :=
  {| state := s; listeners := []; warmUps := 0 |}.

End Unlock.

(** ** The waveform renderer: [getEKGY]

    In binary64, operation by operation as the source writes it; the decimal
    literals are the doubles nearest to them.  [Math.sin] is
    implementation-approximated: the function the engine provides is the
    parameter [sin]. *)

Module Ekg.
Local Open Scope float_scope.

(** [Math.PI] *)
Definition PI : float := 3.141592653589793.

Definition getEKGY (sin : float -> float) (x offset bw mid : float) : float :=
  let t := JS.fmod (x + offset) bw / bw in
  if (0.1 <? t) && (t <? 0.18) then
    mid - sin (((t - 0.1) / 0.08) * PI) * 6
  else if (0.22 <? t) && (t <? 0.24) then mid + ((t - 0.22) / 0.02) * 9
  else if (0.24 <? t) && (t <? 0.28) then mid + 9 - ((t - 0.24) / 0.04) * 46
  else if (0.28 <? t) && (t <? 0.32) then mid - 37 + ((t - 0.28) / 0.04) * 48
  else if (0.32 <? t) && (t <? 0.34) then mid + 11 - ((t - 0.32) / 0.02) * 11
  else if (0.4 <? t) && (t <? 0.52) then
    mid - sin (((t - 0.4) / 0.12) * PI) * 10
  else mid.

(** [const bw = (60 / bpm) * 120] in [draw]: the pixels of one beat. *)
Definition beatWidth (bpm : Z) : float := (60 / JS.Z2F bpm) * 120.

(** The phase the specification names [t]. *)
Definition phase (x offset bw : float) : float :=
  JS.fmod (x + offset) bw / bw.

Definition between (lo hi t : float) : bool := (lo <? t) && (t <? hi).

(** The six open intervals of the phase on which the trace leaves the
    baseline. *)
Definition in_wave (t : float) : bool :=
  between 0.10 0.18 t || between 0.22 0.24 t || between 0.24 0.28 t
  || between 0.28 0.32 t || between 0.32 0.34 t || between 0.40 0.52 t.

(** *** The piecewise definition of the specification

    Written from the specification's words, case by case and in no order: a
    half-sine bump of a given amplitude over an interval, and a linear change
    by a given amount over an interval, each linear piece starting at the
    level where the previous one ended (9, then 9 - 46, then 9 - 46 + 48, and
    back to 0 after the last 11).  The fraction of an interval that has
    passed is [(t - lo) / width], the width being the decimal [hi - lo].  A
    rise is towards larger [y].  For the bumps the words are upward and
    downward: the direction in [y] of each is a parameter. *)
Definition half_sine (sin : float -> float) (lo width amp t : float)
  : float :=
  sin (((t - lo) / width) * PI) * amp.

Definition ramp (lo width amount t : float) : float :=
  ((t - lo) / width) * amount.

Inductive Direction := Larger | Smaller.

Definition opposite (d : Direction) : Direction :=
  match d with Larger => Smaller | Smaller => Larger end.

Definition toward (d : Direction) (mid v : float) : float :=
  match d with Larger => mid + v | Smaller => mid - v end.

Definition waveform (sin : float -> float) (p w : Direction)
  (t mid y : float) : Prop :=
  (between 0.10 0.18 t = true ->
   y = toward p mid (half_sine sin 0.10 0.08 6 t)) /\
  (between 0.22 0.24 t = true -> y = mid + ramp 0.22 0.02 9 t) /\
  (between 0.24 0.28 t = true -> y = mid + 9 - ramp 0.24 0.04 46 t) /\
  (between 0.28 0.32 t = true ->
   y = mid + (9 - 46) + ramp 0.28 0.04 48 t) /\
  (between 0.32 0.34 t = true ->
   y = mid + (9 - 46 + 48) - ramp 0.32 0.02 11 t) /\
  (between 0.40 0.52 t = true ->
   y = toward w mid (half_sine sin 0.40 0.12 10 t)) /\
  (in_wave t = false -> y = mid).

(** The specification as worded: the first bump is upward and the last one
    downward, whichever way [up] points in [y]. *)
Definition getEKGY_spec (sin : float -> float) (up : Direction)
  (t mid y : float) : Prop :=
  waveform sin up (opposite up) t mid y.

End Ekg.

(** ** The component [App] of [heartbeat.tsx]

    The state is what the component and its collaborators hold between two
    events: React state, the refs, the bookkeeping of the two effects that
    matter ([useInterval]'s and the animation effect of [EKG]), and the
    browser's side (active interval timers, the pending animation frame, the
    audio clock and the commands issued to the audio graph).  [showInfo],
    [volume] and the drawing itself are left out. *)

Module App.

Record Timer := { id : nat; period : float }.

Record Browser := {
  timers : list Timer;           (* active setInterval timers *)
  nextTimer : nat;               (* the id the next setInterval returns *)
  currentTime : float;           (* audioCtx.currentTime *)
  audio : list (list Audio.Cmd)  (* one entry per call, latest first *)
}.

(** [useInterval]: the [delay] its effect last ran with, and the timer its
    cleanup clears. *)
Record Interval := { deps : option float; cleanup : option nat }.

(** [EKG]: the refs [off] and [anim], the [dimensions] state (with the
    identity of the object, which is what React compares), and the effect's
    bookkeeping.  [anim] is the pending animation frame, with the [bpm] its
    [draw] closure captured. *)
Record EKG := {
  off : float;
  anim : option Z;
  dimensions : float * float;
  dimId : nat;
  ekgDeps : Z * bool * nat;
  ekgCleanup : bool
}.

Record State := {
  bpm : Z;
  bpmInput : string;
  isPlaying : bool;
  beat : Z;
  audioReady : bool;   (* audioCtx.current && masterGain.current *)
  interval : Interval;
  ekg : EKG;
  browser : Browser
}.

Definition with_bpm (v : Z) (st : State) : State :=
  {| bpm := v; bpmInput := bpmInput st; isPlaying := isPlaying st;
     beat := beat st; audioReady := audioReady st; interval := interval st;
     ekg := ekg st; browser := browser st |}.

Definition with_bpmInput (v : string) (st : State) : State :=
  {| bpm := bpm st; bpmInput := v; isPlaying := isPlaying st;
     beat := beat st; audioReady := audioReady st; interval := interval st;
     ekg := ekg st; browser := browser st |}.

Definition with_isPlaying (v : bool) (st : State) : State :=
  {| bpm := bpm st; bpmInput := bpmInput st; isPlaying := v;
     beat := beat st; audioReady := audioReady st; interval := interval st;
     ekg := ekg st; browser := browser st |}.

Definition with_beat (v : Z) (st : State) : State :=
  {| bpm := bpm st; bpmInput := bpmInput st; isPlaying := isPlaying st;
     beat := v; audioReady := audioReady st; interval := interval st;
     ekg := ekg st; browser := browser st |}.

Definition with_ekg (v : EKG) (st : State) : State :=
  {| bpm := bpm st; bpmInput := bpmInput st; isPlaying := isPlaying st;
     beat := beat st; audioReady := audioReady st; interval := interval st;
     ekg := v; browser := browser st |}.

Definition with_browser (v : Browser) (st : State) : State :=
  {| bpm := bpm st; bpmInput := bpmInput st; isPlaying := isPlaying st;
     beat := beat st; audioReady := audioReady st; interval := interval st;
     ekg := ekg st; browser := v |}.

(** *** Derived values of a render *)

(** [const delay = isPlaying ? (60 / bpm) * 1000 : null] *)
Definition delay (isPlaying : bool) (bpm : Z) : option float :=
  if isPlaying then Some ((60 / JS.Z2F bpm) * 1000)%float else None.

Definition MAX_VISUAL_FLASHES_PER_SEC : float := 3%float.

(** [visualBeat].  The throttle factor is computed in binary64 as in the
    source; [Math.floor (beat / k)] on the integer counter is the floor
    division of [Z] (the double quotient of two integers below 2^53 has the
    same floor). *)
Definition visualBeat (bpm beat : Z) : Z :=
  let beatsPerSec := (JS.Z2F bpm / 60)%float in
  if (MAX_VISUAL_FLASHES_PER_SEC <? beatsPerSec)%float
  then beat / JS.ceil (beatsPerSec / MAX_VISUAL_FLASHES_PER_SEC)%float
  else beat.

(** *** Browser primitives *)

Definition setInterval (ms : float) (b : Browser) : nat * Browser :=
  (nextTimer b,
   {| timers := {| id := nextTimer b; period := ms |} :: timers b;
      nextTimer := S (nextTimer b);
      currentTime := currentTime b; audio := audio b |}).

Definition clearInterval (i : nat) (b : Browser) : Browser :=
  {| timers := filter (fun t => negb (Nat.eqb (id t) i)) (timers b);
     nextTimer := nextTimer b;
     currentTime := currentTime b; audio := audio b |}.

Definition schedule (cs : list Audio.Cmd) (b : Browser) : Browser :=
  {| timers := timers b; nextTimer := nextTimer b;
     currentTime := currentTime b; audio := cs :: audio b |}.

Definition setCurrentTime (t : float) (b : Browser) : Browser :=
  {| timers := timers b; nextTimer := nextTimer b;
     currentTime := t; audio := audio b |}.

(** *** Effects *)

(** [useInterval]'s second effect, dependencies [[delay]]: skipped when the
    delay is the one of the last run; otherwise the previous cleanup runs
    ([clearInterval (id)]), and a timer is armed unless the delay is [null]. *)
Definition useInterval (d : option float) (h : Interval) (b : Browser)
  : Interval * Browser :=
  if JS.Object_is d (deps h) then (h, b)
  else
    let b1 := match cleanup h with
              | Some i => clearInterval i b
              | None => b
              end in
    match d with
    | None => ({| deps := d; cleanup := None |}, b1)
    | Some ms =>
        let (i, b2) := setInterval ms b1 in
        ({| deps := d; cleanup := Some i |}, b2)
    end.

(** [draw], as closed over the [bpm] and [isPlaying] of the render that
    created it: paused, it draws the dashed baseline once; playing, it
    advances [off.current], strokes the trace and requests the next frame. *)
Definition draw (bpm : Z) (isPlaying : bool) (e : EKG) : EKG :=
  if isPlaying then
    let bw := Ekg.beatWidth bpm in
    {| off := JS.fmod (off e + 1.5) bw; anim := Some bpm;
       dimensions := dimensions e; dimId := dimId e;
       ekgDeps := ekgDeps e; ekgCleanup := ekgCleanup e |}
  else e.

Definition ekgDeps_eqb (a b : Z * bool * nat) : bool :=
  let '(b1, p1, d1) := a in
  let '(b2, p2, d2) := b in
  (b1 =? b2) && Bool.eqb p1 p2 && Nat.eqb d1 d2.

(** The animation effect of [EKG], dependencies [[bpm, isPlaying,
    dimensions]].  Its cleanup cancels the pending frame; its body returns
    early, registering no cleanup, while the width is [0]. *)
Definition EKG_effect (bpm : Z) (isPlaying : bool) (e : EKG) : EKG :=
  let d := (bpm, isPlaying, dimId e) in
  if ekgDeps_eqb d (ekgDeps e) then e
  else
    let pending := if ekgCleanup e then None else anim e in
    if (fst (dimensions e) =? 0)%float then
      {| off := off e; anim := pending; dimensions := dimensions e;
         dimId := dimId e; ekgDeps := d; ekgCleanup := false |}
    else
      draw bpm isPlaying
        {| off := off e; anim := pending; dimensions := dimensions e;
           dimId := dimId e; ekgDeps := d; ekgCleanup := true |}.

(** A render followed by its effects. *)
Definition commit (st : State) : State :=
  let (h, b) :=
    useInterval (delay (isPlaying st) (bpm st)) (interval st) (browser st) in
  {| bpm := bpm st; bpmInput := bpmInput st; isPlaying := isPlaying st;
     beat := beat st; audioReady := audioReady st; interval := h;
     ekg := EKG_effect (bpm st) (isPlaying st) (ekg st); browser := b |}.

(** *** Handlers *)

(** [createHeartbeatSound (audioCtx.current, masterGain.current,
    audioCtx.current.currentTime); setBeat ((p) => p + 1)] *)
Definition playBeat (st : State) : State :=
  with_beat (beat st + 1)
    (with_browser
       (schedule (Audio.createHeartbeatSound (currentTime (browser st)))
          (browser st)) st).

(** The callback [useInterval] is given.  [savedCallback] holds the one of
    the last render; it reads refs and updates the counter from its previous
    value, so it is the same function at every render. *)
Definition tick (st : State) : State :=
  if audioReady st then playBeat st else st.

(** [start]; the [await] of [resume ()] is not a separate step. *)
Definition start (st : State) : State :=
  if audioReady st then commit (with_isPlaying true (playBeat st)) else st.

Definition stop (st : State) : State := commit (with_isPlaying false st).

Definition handleInputChange (value : string) (st : State) : State :=
  let st1 := with_bpmInput value st in
  commit
    match JS.parseInt value with
    | JS.Int n => if (MIN_BPM <=? n) && (n <=? MAX_BPM) then with_bpm n st1
                  else st1
    | _ => st1
    end.

Definition handleInputBlur (st : State) : State :=
  commit
    match JS.parseInt (bpmInput st) with
    | JS.NaN | JS.Infinite true =>
        with_bpmInput (JS.String_of MIN_BPM) (with_bpm MIN_BPM st)
    | JS.Infinite false =>
        with_bpmInput (JS.String_of MAX_BPM) (with_bpm MAX_BPM st)
    | JS.Int n =>
        if n <? MIN_BPM then
          with_bpmInput (JS.String_of MIN_BPM) (with_bpm MIN_BPM st)
        else if MAX_BPM <? n then
          with_bpmInput (JS.String_of MAX_BPM) (with_bpm MAX_BPM st)
        else st
    end.

(** [handleSliderChange], and the [onClick] of a preset button. *)
Definition handleSliderChange (v : Z) (st : State) : State :=
  commit (with_bpmInput (JS.String_of v) (with_bpm v st)).

(** The [ResizeObserver] callback: [setDimensions] with a new object. *)
Definition resize (w h : float) (st : State) : State :=
  commit
    (with_ekg
       {| off := off (ekg st); anim := anim (ekg st); dimensions := (w, h);
          dimId := S (dimId (ekg st)); ekgDeps := ekgDeps (ekg st);
          ekgCleanup := ekgCleanup (ekg st) |} st).

(** The pending animation frame runs [draw] again. *)
Definition animationFrame (st : State) : State :=
  match anim (ekg st) with
  | Some b =>
      with_ekg
        (draw b true
           {| off := off (ekg st); anim := None;
              dimensions := dimensions (ekg st); dimId := dimId (ekg st);
              ekgDeps := ekgDeps (ekg st);
              ekgCleanup := ekgCleanup (ekg st) |}) st
  | None => st
  end.

(** An interval timer fires, if it is still active. *)
Definition fire (i : nat) (st : State) : State :=
  if existsb (fun t => Nat.eqb (id t) i) (timers (browser st))
  then commit (tick st) else st.

(** *** The component as a transition system *)

Inductive Event :=
| Start | Stop
| Fire (i : nat)
| AnimationFrame
| InputChange (value : string)
| InputBlur
| SliderChange (v : Z)
| Preset (v : Z)
| Resize (w h : float)
| Clock (t : float).

Definition step (st : State) (ev : Event) : State :=
  match ev with
  | Start => start st
  | Stop => stop st
  | Fire i => fire i st
  | AnimationFrame => animationFrame st
  | InputChange value => handleInputChange value st
  | InputBlur => handleInputBlur st
  | SliderChange v | Preset v => handleSliderChange v st
  | Resize w h => resize w h st
  | Clock t => with_browser (setCurrentTime t (browser st)) st
  end.

(** The state once mounted: the audio context and the master gain exist, no
    timer is armed, the canvas has not been measured yet. *)
Definition init : State :=
  {| bpm := 162; bpmInput := "162"; isPlaying := false; beat := 0;
     audioReady := true;
     interval := {| deps := None; cleanup := None |};
     ekg := {| off := 0%float; anim := None;
               dimensions := (0%float, 0%float); dimId := 0;
               ekgDeps := (162, false, 0%nat); ekgCleanup := false |};
     browser := {| timers := []; nextTimer := 1; currentTime := 0%float;
                   audio := [] |} |}.

Definition run (st : State) (evs : list Event) : State := fold_left step evs st.

Inductive reachable : State -> Prop :=
| reachable_init : reachable init
| reachable_step st ev : reachable st -> reachable (step st ev).

(** *** Values the markup derives *)

Definition BPM_PRESETS : list (string * Z) :=
  [("Sleep", 50); ("Rest", 72); ("Walk", 110); ("Run", 155);
   ("Sprint", 190)]%string.

(** [const pct = ((bpm - MIN_BPM) / (MAX_BPM - MIN_BPM)) * 100], the filled
    part of the slider track. *)
Definition pct (bpm : Z) : float :=
  ((JS.Z2F bpm - JS.Z2F MIN_BPM) / (JS.Z2F MAX_BPM - JS.Z2F MIN_BPM)
   * 100)%float.
End App.

(** ** The component [App] of [heartbeat.jsx]

    The first version keeps the interval id in the ref [iv] and re-arms the
    timer by hand, in [start] and in an effect on [[bpm, on]]. *)

Module Legacy.

(** The two callbacks given to [setInterval]: [b], made by [start], and the
    arrow function of the effect, which tests [ctx.current] first. *)
Inductive Callback := FromStart | FromEffect.

Record Timer := { id : nat; period : float; callback : Callback }.

Record State := {
  bpm : Z;
  inp : string;
  on : bool;
  beat : Z;
  ctx : bool;                    (* ctx.current holds an AudioContext *)
  iv : option nat;               (* iv.current *)
  effectDeps : Z * bool;         (* [bpm, on] of the effect's last run *)
  timers : list Timer;
  nextTimer : nat;
  currentTime : float;
  audio : list (list Audio.Cmd)
}.

Definition with_timer (i : option nat) (ts : list Timer) (n : nat)
  (st : State) : State :=
  {| bpm := bpm st; inp := inp st; on := on st; beat := beat st;
     ctx := ctx st; iv := i; effectDeps := effectDeps st; timers := ts;
     nextTimer := n; currentTime := currentTime st; audio := audio st |}.

Definition with_react (b : Z) (s : string) (o : bool) (st : State) : State :=
  {| bpm := b; inp := s; on := o; beat := beat st;
     ctx := ctx st; iv := iv st; effectDeps := effectDeps st;
     timers := timers st; nextTimer := nextTimer st;
     currentTime := currentTime st; audio := audio st |}.

Definition with_ctx (c : bool) (st : State) : State :=
  {| bpm := bpm st; inp := inp st; on := on st; beat := beat st;
     ctx := c; iv := iv st; effectDeps := effectDeps st;
     timers := timers st; nextTimer := nextTimer st;
     currentTime := currentTime st; audio := audio st |}.

Definition with_effectDeps (d : Z * bool) (st : State) : State :=
  {| bpm := bpm st; inp := inp st; on := on st; beat := beat st;
     ctx := ctx st; iv := iv st; effectDeps := d;
     timers := timers st; nextTimer := nextTimer st;
     currentTime := currentTime st; audio := audio st |}.

Definition with_currentTime (t : float) (st : State) : State :=
  {| bpm := bpm st; inp := inp st; on := on st; beat := beat st;
     ctx := ctx st; iv := iv st; effectDeps := effectDeps st;
     timers := timers st; nextTimer := nextTimer st;
     currentTime := t; audio := audio st |}.

(** [const ms = (60 / bpm) * 1000] *)
Definition ms (bpm : Z) : float := ((60 / JS.Z2F bpm) * 1000)%float.

(** [if (iv.current) clearInterval (iv.current)]: the ref keeps its value. *)
Definition clearCurrent (st : State) : State :=
  match iv st with
  | Some i =>
      with_timer (iv st)
        (filter (fun t => negb (Nat.eqb (id t) i)) (timers st))
        (nextTimer st) st
  | None => st
  end.

(** [iv.current = setInterval (cb, ms)] *)
Definition arm (cb : Callback) (d : float) (st : State) : State :=
  with_timer (Some (nextTimer st))
    ({| id := nextTimer st; period := d; callback := cb |} :: timers st)
    (S (nextTimer st)) st.

(** [createHeartbeatSound (ctx.current, ctx.current.currentTime);
    setBeat ((p) => p + 1)] *)
Definition playBeat (st : State) : State :=
  {| bpm := bpm st; inp := inp st; on := on st; beat := beat st + 1;
     ctx := ctx st; iv := iv st; effectDeps := effectDeps st;
     timers := timers st; nextTimer := nextTimer st;
     currentTime := currentTime st;
     audio := Audio.createHeartbeatSound_jsx (currentTime st) :: audio st |}.

(** The effect on [[bpm, on]]. *)
Definition effect (st : State) : State :=
  let d := (bpm st, on st) in
  if (fst d =? fst (effectDeps st)) && Bool.eqb (snd d) (snd (effectDeps st))
  then st
  else
    let st1 := with_effectDeps d st in
    if on st then arm FromEffect (ms (bpm st)) (clearCurrent st1) else st1.

Definition start (st : State) : State :=
  let st1 := clearCurrent (with_ctx true st) in
  let d := ms (bpm st) in
  let st2 := arm FromStart d (playBeat st1) in
  effect (with_react (bpm st2) (inp st2) true st2).

Definition stop (st : State) : State :=
  let st1 :=
    match iv st with
    | Some _ => with_timer None (timers (clearCurrent st)) (nextTimer st) st
    | None => st
    end in
  effect (with_react (bpm st1) (inp st1) false st1).

Definition onChange (value : string) (st : State) : State :=
  effect
    match JS.parseInt value with
    | JS.Int n => if (MIN_BPM <=? n) && (n <=? MAX_BPM)
                  then with_react n value (on st) st
                  else with_react (bpm st) value (on st) st
    | _ => with_react (bpm st) value (on st) st
    end.

Definition onBlur (st : State) : State :=
  effect
    match JS.parseInt (inp st) with
    | JS.NaN | JS.Infinite true =>
        with_react MIN_BPM (JS.String_of MIN_BPM) (on st) st
    | JS.Infinite false =>
        with_react MAX_BPM (JS.String_of MAX_BPM) (on st) st
    | JS.Int n =>
        if n <? MIN_BPM then
          with_react MIN_BPM (JS.String_of MIN_BPM) (on st) st
        else if MAX_BPM <? n then
          with_react MAX_BPM (JS.String_of MAX_BPM) (on st) st
        else st
    end.

Definition onSlider (v : Z) (st : State) : State :=
  effect (with_react v (JS.String_of v) (on st) st).

Definition fire (i : nat) (st : State) : State :=
  match find (fun t => Nat.eqb (id t) i) (timers st) with
  | Some t =>
      match callback t with
      | FromStart => effect (playBeat st)
      | FromEffect => if ctx st then effect (playBeat st) else st
      end
  | None => st
  end.

Inductive Event :=
| Start | Stop
| Fire (i : nat)
| InputChange (value : string)
| InputBlur
| SliderChange (v : Z)
| Preset (v : Z)
| Clock (t : float).

Definition step (st : State) (ev : Event) : State :=
  match ev with
  | Start => start st
  | Stop => stop st
  | Fire i => fire i st
  | InputChange value => onChange value st
  | InputBlur => onBlur st
  | SliderChange v | Preset v => onSlider v st
  | Clock t => with_currentTime t st
  end.

Definition init : State :=
  {| bpm := 72; inp := "72"; on := false; beat := 0; ctx := false;
     iv := None; effectDeps := (72, false); timers := []; nextTimer := 1;
     currentTime := 0%float; audio := [] |}.

Inductive reachable : State -> Prop :=
| reachable_init : reachable init
| reachable_step st ev : reachable st -> reachable (step st ev).

(** The presets [P]. *)
Definition P : list (string * Z) :=
  [("Sleep", 50); ("Rest", 72); ("Walk", 110); ("Run", 155);
   ("Sprint", 190)]%string.

End Legacy.

(** ** Vocabulary of the properties *)

(** Two doubles are within one unit in the last place when they are equal or
    neighbours. *)
Definition within_one_ulp (d q : float) : Prop :=
  d = q \/ d = next_up q \/ d = next_down q.

Definition within_one_ulpb (d q : float) : bool :=
  Leibniz.eqb d q || Leibniz.eqb d (next_up q) || Leibniz.eqb d (next_down q).

(** The integers [lo, lo + 1, ..., lo + n - 1]. *)
Definition Zrange (lo : Z) (n : nat) : list Z :=
  map (fun k => lo + Z.of_nat k) (seq 0 n).

(** The beat counter over a run of consecutive audio beats: its value [b] at
    the first beat and at the [m] beats that follow. *)
Definition beats_from (b : Z) (m : nat) : list Z := Zrange b (S m).

(** [m] beat intervals of [60000 / bpm] ms fit in a window of [window] ms. *)
Definition spans_within (bpm : Z) (m : nat) (window : Z) : Prop :=
  Z.of_nat m * 60000 <= window * bpm.

Definition distinct (l : list Z) : nat := List.length (nodup Z.eq_dec l).

(** How many times the value changes along a list. *)
Fixpoint changes (l : list Z) : nat :=
  match l with
  | a :: (b :: _) as l' => (if a =? b then 0 else 1) + changes l'
  | _ => 0
  end.

(** The shape of the S2 component in a schedule [cs] of a beat triggered at
    [t]: started 0.13 s after [t]; frequency set to 75 Hz at that start and
    ramped to 35 Hz by 0.1 s after it; gain raised from 0 to 0.55 over the
    first 0.008 s and decayed to 0.001 by 0.1 s after the start; stopped
    0.12 s after the start. *)
Definition S2_shape (cs : list Audio.Cmd) (t : float) : Prop :=
  Audio.startTime Audio.o2 cs = Some (t + 0.13)%float /\
  Audio.stopTime Audio.o2 cs = Some (t + 0.13 + 0.12)%float /\
  Audio.automation Audio.o2 Audio.frequency cs
  = [ (Audio.SetAt, 75, t + 0.13); (Audio.Exponential, 35, t + 0.13 + 0.1)
    ]%float /\
  Audio.automation Audio.g2 Audio.gain cs
  = [ (Audio.SetAt, 0, t + 0.13); (Audio.Linear, 0.55, t + 0.13 + 0.008);
      (Audio.Exponential, 0.001, t + 0.13 + 0.1) ]%float.

(** The bound of [[MIN_BPM, MAX_BPM]] nearest to [n], or [n] itself inside. *)
Definition clamp (n : Z) : Z := Z.max MIN_BPM (Z.min MAX_BPM n).

(** What a blur is to make of the BPM and the text of the input, given what
    the text parses to: both are kept when the number is in range; otherwise
    the BPM is the clamped number and the text is its decimal form; text that
    does not parse goes to the lower bound. *)
Definition blur_outcome (parsed : JS.Number) (before : Z * string)
  : Z * string :=
  match parsed with
  | JS.Int n =>
      if (MIN_BPM <=? n) && (n <=? MAX_BPM) then before
      else (clamp n, JS.String_of (clamp n))
  | JS.Infinite false => (MAX_BPM, JS.String_of MAX_BPM)
  | JS.Infinite true => (MIN_BPM, JS.String_of MIN_BPM)
  | JS.NaN => (MIN_BPM, JS.String_of MIN_BPM)
  end.

(** The states between two events of [heartbeat.tsx]: both effects have run
    on the values of the last render, the audio context exists, and the
    browser holds the timer [useInterval]'s cleanup will clear and no
    other. *)
Definition timer_inv (h : App.Interval) (b : App.Browser) : Prop :=
  match App.cleanup h, App.deps h with
  | Some i, Some d => App.timers b = [{| App.id := i; App.period := d |}]
  | None, None => App.timers b = []
  | _, _ => False
  end.

Definition settled (st : App.State) : Prop :=
  App.deps (App.interval st) = App.delay (App.isPlaying st) (App.bpm st) /\
  App.ekgDeps (App.ekg st)
  = (App.bpm st, App.isPlaying st, App.dimId (App.ekg st)) /\
  App.audioReady st = true /\
  timer_inv (App.interval st) (App.browser st).

(** The same for [heartbeat.jsx].  [armed]: while playing, [iv] names the one
    active timer, whose period is that of the BPM the effect last saw; while
    stopped there is none.  [settled_jsx]: moreover the effect has run on the
    current [bpm] and [on]. *)
Definition armed (st : Legacy.State) : Prop :=
  match Legacy.iv st with
  | Some i =>
      Legacy.on st = true /\
      exists cb,
        Legacy.timers st
        = [{| Legacy.id := i;
              Legacy.period := Legacy.ms (fst (Legacy.effectDeps st));
              Legacy.callback := cb |}]
  | None => Legacy.on st = false /\ Legacy.timers st = []
  end.

Definition settled_jsx (st : Legacy.State) : Prop :=
  Legacy.effectDeps st = (Legacy.bpm st, Legacy.on st) /\ armed st.

(** ** Vocabulary of the further properties *)

(** Events as the browser delivers them: the range slider reports an integer
    between its [min] and [max], a preset button the value of one of the
    presets.  A state is [operated] when such events lead to it from the
    mounted component. *)
Definition admissible (ev : App.Event) : Prop :=
  match ev with
  | App.SliderChange v => MIN_BPM <= v <= MAX_BPM
  | App.Preset v => In v (map snd App.BPM_PRESETS)
  | _ => True
  end.

Inductive operated : App.State -> Prop :=
| operated_init : operated App.init
| operated_step st ev :
    operated st -> admissible ev -> operated (App.step st ev).

Definition admissible_jsx (ev : Legacy.Event) : Prop :=
  match ev with
  | Legacy.SliderChange v => MIN_BPM <= v <= MAX_BPM
  | Legacy.Preset v => In v (map snd Legacy.P)
  | _ => True
  end.

Inductive operated_jsx : Legacy.State -> Prop :=
| operated_jsx_init : operated_jsx Legacy.init
| operated_jsx_step st ev :
    operated_jsx st -> admissible_jsx ev -> operated_jsx (Legacy.step st ev).

(** A double that is not above zero: a zero, NaN, or one whose sign bit is
    set. *)
Definition not_positive (x : float) : Prop :=
  match Prim2SF x with
  | S754_zero _ | S754_nan => True
  | S754_infinity s | S754_finite s _ _ => s = true
  end.

(** The exact value of the double [t] lies strictly between the fractions
    [lo / den] and [hi / den]. *)
Definition strictly_between (lo hi den : Z) (t : float) : Prop :=
  exists u, JS.units t = Some u /\
            lo * 2 ^ 1074 < den * u < hi * 2 ^ 1074.

(** *** Rounding *)






(** The canvas has been measured with a width. *)
Definition laid_out (e : App.EKG) : bool :=
  negb (fst (App.dimensions e) =? 0)%float.

(** What the animation effect of [EKG] maintains: a cleanup is registered
    exactly when the canvas is laid out; a frame is pending exactly while
    playing on a laid out canvas, and its [draw] has the current [bpm]. *)
Definition anim_inv (st : App.State) : Prop :=
  App.ekgCleanup (App.ekg st) = laid_out (App.ekg st) /\
  App.anim (App.ekg st)
  = (if App.isPlaying st && laid_out (App.ekg st)
     then Some (App.bpm st) else None).

(** Every active timer has an id below the next one to be issued. *)
Definition fresh_ids (b : App.Browser) : Prop :=
  forall t, In t (App.timers b) -> (App.id t < App.nextTimer b)%nat.


(** Whether an event plays a beat: [start], and an active timer firing. *)
Definition plays (st : App.State) (ev : App.Event) : bool :=
  match ev with
  | App.Start => App.audioReady st
  | App.Fire i =>
      existsb (fun t => Nat.eqb (App.id t) i) (App.timers (App.browser st))
      && App.audioReady st
  | _ => false
  end.

Definition plays_jsx (st : Legacy.State) (ev : Legacy.Event) : bool :=
  match ev with
  | Legacy.Start => true
  | Legacy.Fire i =>
      match find (fun t => Nat.eqb (Legacy.id t) i) (Legacy.timers st) with
      | Some t =>
          match Legacy.callback t with
          | Legacy.FromStart => true
          | Legacy.FromEffect => Legacy.ctx st
          end
      | None => false
      end
  | _ => false
  end.

(** The cached buffer, if any, was made for the cached sample rate. *)
Definition consistent (c : Noise.Cache) : Prop :=
  match Noise.cachedNoiseBuffer c with
  | Some b => Noise.sampleRate b = Noise.cachedSampleRate c
  | None => True
  end.

(** Reading the graph of a schedule: the nodes that are started, the nodes
    connected to something, the nodes an [onended] handler disconnects, and
    where following the connections from a node ends. *)
Definition started (cs : list Audio.Cmd) : list Audio.Node :=
  flat_map (fun c => match c with Audio.start nd _ => [nd] | _ => [] end) cs.

Definition wired (cs : list Audio.Cmd) : list Audio.Node :=
  flat_map (fun c => match c with Audio.connect nd _ => [nd] | _ => [] end)
    cs.

Definition released (cs : list Audio.Cmd) : list Audio.Node :=
  flat_map (fun c => match c with Audio.onended _ l => l | _ => [] end) cs.

Fixpoint next_node (cs : list Audio.Cmd) (nd : Audio.Node)
  : option Audio.Node :=
  match cs with
  | Audio.connect src dst :: cs' =>
      if Audio.Node_eqb nd src then Some dst else next_node cs' nd
  | _ :: cs' => next_node cs' nd
  | [] => None
  end.

Fixpoint sink (fuel : nat) (cs : list Audio.Cmd) (nd : Audio.Node)
  : Audio.Node :=
  match fuel with
  | O => nd
  | S k => match next_node cs nd with
           | Some nd' => sink k cs nd'
           | None => nd
           end
  end.

(** The first version's schedule seen from the second: its own [master]
    node stands for the shared [masterGain]. *)
Definition to_masterGain (nd : Audio.Node) : Audio.Node :=
  match nd with Audio.master => Audio.masterGain | _ => nd end.

Definition reroute (c : Audio.Cmd) : Audio.Cmd :=
  match c with
  | Audio.setType nd ty => Audio.setType (to_masterGain nd) ty
  | Audio.setValue nd p v => Audio.setValue (to_masterGain nd) p v
  | Audio.setBuffer nd => Audio.setBuffer (to_masterGain nd)
  | Audio.setValueAtTime nd p v t =>
      Audio.setValueAtTime (to_masterGain nd) p v t
  | Audio.linearRampToValueAtTime nd p v t =>
      Audio.linearRampToValueAtTime (to_masterGain nd) p v t
  | Audio.exponentialRampToValueAtTime nd p v t =>
      Audio.exponentialRampToValueAtTime (to_masterGain nd) p v t
  | Audio.connect a b => Audio.connect (to_masterGain a) (to_masterGain b)
  | Audio.start nd t => Audio.start (to_masterGain nd) t
  | Audio.stop nd t => Audio.stop (to_masterGain nd) t
  | Audio.onended nd l => Audio.onended (to_masterGain nd) (map to_masterGain l)
  end.

Definition is_onended (c : Audio.Cmd) : bool :=
  match c with Audio.onended _ _ => true | _ => false end.

(** The two versions side by side: the same React state, audio clock and
    timer periods, and beat for beat the sound of the same trigger time. *)
Definition same_beat (a b : list Audio.Cmd) : Prop :=
  exists t, a = Audio.createHeartbeatSound t /\
            b = Audio.createHeartbeatSound_jsx t.

Definition corresponds (st : App.State) (lst : Legacy.State) : Prop :=
  App.bpm st = Legacy.bpm lst /\
  App.bpmInput st = Legacy.inp lst /\
  App.isPlaying st = Legacy.on lst /\
  App.beat st = Legacy.beat lst /\
  App.currentTime (App.browser st) = Legacy.currentTime lst /\
  map App.period (App.timers (App.browser st))
  = map Legacy.period (Legacy.timers lst) /\
  Forall2 same_beat (App.audio (App.browser st)) (Legacy.audio lst).

(** An event of the one and the event of the other that is the same user
    action; a timer firing is paired with a timer firing when the two ids
    are both active or both stale. *)
Definition paired (st : App.State) (lst : Legacy.State)
  (ev : App.Event) (ev' : Legacy.Event) : Prop :=
  match ev, ev' with
  | App.Start, Legacy.Start | App.Stop, Legacy.Stop
  | App.InputBlur, Legacy.InputBlur => True
  | App.InputChange v, Legacy.InputChange v' => v = v'
  | App.SliderChange v, Legacy.SliderChange v'
  | App.Preset v, Legacy.Preset v' => v = v'
  | App.Clock t, Legacy.Clock t' => t = t'
  | App.Fire i, Legacy.Fire j =>
      existsb (fun t => Nat.eqb (App.id t) i) (App.timers (App.browser st))
      = existsb (fun t => Nat.eqb (Legacy.id t) j) (Legacy.timers lst)
  | _, _ => False
  end.

(** * Invariants and arithmetic *)

(** ** Rendering and its invariants *)

Lemma Object_is_true_iff (a b : option float) :
  JS.Object_is a b = true <-> a = b.
Proof.
  destruct a as [x|], b as [y|]; cbn; split; intros H;
    try discriminate; try reflexivity.
  - f_equal. apply Leibniz.eqb_spec, H.
  - injection H as ->. apply Leibniz.eqb_spec. reflexivity.
Qed.

Lemma ekgDeps_eqb_true_iff (a b : Z * bool * nat) :
  App.ekgDeps_eqb a b = true <-> a = b.
Proof.
  destruct a as [[a1 a2] a3], b as [[b1 b2] b3]. cbn.
  rewrite !andb_true_iff, Z.eqb_eq, Bool.eqb_true_iff, Nat.eqb_eq.
  split; [intros [[-> ->] ->]; reflexivity | intros [= -> -> ->]; auto].
Qed.

(** A render leaves the React state alone. *)
Lemma commit_react (st : App.State) :
  App.bpm (App.commit st) = App.bpm st /\
  App.bpmInput (App.commit st) = App.bpmInput st /\
  App.isPlaying (App.commit st) = App.isPlaying st /\
  App.beat (App.commit st) = App.beat st /\
  App.audioReady (App.commit st) = App.audioReady st.
Proof.
  unfold App.commit. destruct (App.useInterval _ _ _). repeat split.
Qed.

Lemma commit_parts (st : App.State) :
  App.interval (App.commit st)
  = fst (App.useInterval (App.delay (App.isPlaying st) (App.bpm st))
           (App.interval st) (App.browser st)) /\
  App.browser (App.commit st)
  = snd (App.useInterval (App.delay (App.isPlaying st) (App.bpm st))
           (App.interval st) (App.browser st)) /\
  App.ekg (App.commit st)
  = App.EKG_effect (App.bpm st) (App.isPlaying st) (App.ekg st).
Proof.
  unfold App.commit. destruct (App.useInterval _ _ _). repeat split.
Qed.

Lemma useInterval_inv (d : option float) (h : App.Interval)
  (b : App.Browser) :
  timer_inv h b ->
  timer_inv (fst (App.useInterval d h b)) (snd (App.useInterval d h b)) /\
  App.deps (fst (App.useInterval d h b)) = d.
Proof.
  intros H. unfold App.useInterval.
  destruct (JS.Object_is d (App.deps h)) eqn:E.
  - apply Object_is_true_iff in E. cbn. auto.
  - assert (App.timers
              match App.cleanup h with
              | Some i => App.clearInterval i b
              | None => b
              end = []) as Hclear.
    { unfold timer_inv in H.
      destruct (App.cleanup h) as [i|], (App.deps h) as [d0|];
        try contradiction; [|exact H].
      cbn. rewrite H. cbn. rewrite Nat.eqb_refl. reflexivity. }
    destruct d as [ms|]; cbn; unfold timer_inv; cbn.
    + rewrite Hclear. auto.
    + auto.
Qed.

Lemma EKG_effect_deps (b : Z) (p : bool) (e : App.EKG) :
  App.dimId (App.EKG_effect b p e) = App.dimId e /\
  App.ekgDeps (App.EKG_effect b p e) = (b, p, App.dimId e).
Proof.
  unfold App.EKG_effect, App.draw.
  destruct (App.ekgDeps_eqb _ _) eqn:E.
  - apply ekgDeps_eqb_true_iff in E. auto.
  - destruct (_ =? 0)%float; [cbn; auto|]. destruct p; cbn; auto.
Qed.

Lemma EKG_effect_off (b : Z) (p : bool) (e : App.EKG) :
  App.off (App.EKG_effect b p e)
  = if App.ekgDeps_eqb (b, p, App.dimId e) (App.ekgDeps e) then App.off e
    else if (fst (App.dimensions e) =? 0)%float then App.off e
    else if p then JS.fmod (App.off e + 1.5) (Ekg.beatWidth b)
    else App.off e.
Proof.
  unfold App.EKG_effect, App.draw.
  destruct (App.ekgDeps_eqb _ _); [reflexivity|].
  destruct (_ =? 0)%float; [reflexivity|]. destruct p; reflexivity.
Qed.

Lemma EKG_effect_dimensions (b : Z) (p : bool) (e : App.EKG) :
  App.dimensions (App.EKG_effect b p e) = App.dimensions e.
Proof.
  unfold App.EKG_effect, App.draw.
  destruct (App.ekgDeps_eqb _ _); [reflexivity|].
  destruct (_ =? 0)%float; [reflexivity|]. destruct p; reflexivity.
Qed.

(** A render re-establishes [settled] from the part of it that handlers
    cannot break. *)
Lemma commit_settled (st : App.State) :
  App.audioReady st = true ->
  timer_inv (App.interval st) (App.browser st) ->
  settled (App.commit st).
Proof.
  intros Ha Ht. unfold settled.
  destruct (commit_react st) as (-> & _ & -> & _ & ->).
  destruct (commit_parts st) as (-> & -> & ->).
  destruct (useInterval_inv
              (App.delay (App.isPlaying st) (App.bpm st)) _ _ Ht) as [H1 H2].
  destruct (EKG_effect_deps (App.bpm st) (App.isPlaying st) (App.ekg st))
    as [-> ->].
  auto.
Qed.

(** A settled state is a fixed point of rendering. *)
Lemma commit_fixed (st : App.State) : settled st -> App.commit st = st.
Proof.
  intros (Hd & He & _ & _). unfold App.commit, App.useInterval, App.EKG_effect.
  rewrite (proj2 (Object_is_true_iff _ _) (eq_sym Hd)).
  rewrite (proj2 (ekgDeps_eqb_true_iff _ _) (eq_sym He)).
  destruct st; reflexivity.
Qed.

Lemma step_settled (st : App.State) (ev : App.Event) :
  settled st -> settled (App.step st ev).
Proof.
  intros H. pose proof H as (Hd & He & Ha & Ht).
  destruct ev; cbn [App.step].
  - unfold App.start. rewrite Ha. apply commit_settled; assumption.
  - apply commit_settled; assumption.
  - unfold App.fire. destruct (existsb _ _); [|exact H].
    unfold App.tick. rewrite Ha. apply commit_settled; assumption.
  - unfold App.animationFrame.
    destruct (App.anim (App.ekg st)); [|exact H].
    repeat split; assumption.
  - unfold App.handleInputChange.
    apply commit_settled;
      destruct (JS.parseInt value) as [|[|]|n]; try destruct (_ && _);
      assumption.
  - unfold App.handleInputBlur.
    apply commit_settled;
      destruct (JS.parseInt _) as [|[|]|n]; try destruct (n <? _);
      try destruct (_ <? n); assumption.
  - apply commit_settled; assumption.
  - apply commit_settled; assumption.
  - apply commit_settled; assumption.
  - repeat split; assumption.
Qed.

Lemma reachable_settled (st : App.State) : App.reachable st -> settled st.
Proof.
  induction 1 as [|st ev _ IH]; [|apply step_settled, IH].
  repeat split; reflexivity.
Qed.

Lemma settled_timers (st : App.State) :
  settled st -> (List.length (App.timers (App.browser st)) <= 1)%nat.
Proof.
  intros (_ & _ & _ & H). unfold timer_inv in H.
  destruct (App.cleanup _), (App.deps _); try contradiction;
    rewrite H; cbn; lia.
Qed.

(** While playing, the one timer has the delay of the current BPM. *)
Lemma settled_period (st : App.State) :
  settled st -> App.isPlaying st = true ->
  exists i,
    App.timers (App.browser st)
    = [{| App.id := i; App.period := Legacy.ms (App.bpm st) |}].
Proof.
  intros (Hd & _ & _ & H) Hp. unfold timer_inv in H.
  rewrite Hd, Hp in H. cbn in H.
  destruct (App.cleanup _) as [i|]; [eauto | contradiction].
Qed.

(** The same for [heartbeat.jsx]. *)
Lemma effect_react (st : Legacy.State) :
  Legacy.bpm (Legacy.effect st) = Legacy.bpm st /\
  Legacy.inp (Legacy.effect st) = Legacy.inp st /\
  Legacy.on (Legacy.effect st) = Legacy.on st /\
  Legacy.beat (Legacy.effect st) = Legacy.beat st.
Proof.
  unfold Legacy.effect, Legacy.arm, Legacy.clearCurrent.
  destruct (_ && _); [repeat split|].
  destruct (Legacy.on st) eqn:E; cbn; [|repeat split; exact E].
  destruct (Legacy.iv st); cbn; repeat split; exact E.
Qed.

Lemma clearCurrent_frame (st : Legacy.State) :
  Legacy.bpm (Legacy.clearCurrent st) = Legacy.bpm st /\
  Legacy.on (Legacy.clearCurrent st) = Legacy.on st /\
  Legacy.effectDeps (Legacy.clearCurrent st) = Legacy.effectDeps st.
Proof.
  unfold Legacy.clearCurrent. destruct (Legacy.iv st); repeat split.
Qed.

Lemma clearCurrent_timers (st : Legacy.State) :
  armed st -> Legacy.timers (Legacy.clearCurrent st) = [].
Proof.
  unfold armed, Legacy.clearCurrent. destruct (Legacy.iv st) as [i|].
  - intros (_ & cb & ->). cbn. rewrite Nat.eqb_refl. reflexivity.
  - intros [_ H]. exact H.
Qed.

(** The effect re-establishes [settled_jsx] from [armed]. *)
Lemma effect_settled (st : Legacy.State) :
  armed st -> settled_jsx (Legacy.effect st).
Proof.
  intros H. unfold Legacy.effect. cbn [fst snd].
  destruct (_ && _) eqn:E.
  - apply andb_true_iff in E as [E1 E2].
    apply Z.eqb_eq in E1. apply Bool.eqb_prop in E2.
    split; [|exact H].
    destruct (Legacy.effectDeps st); cbn in *; congruence.
  - destruct (Legacy.on st) eqn:Hon.
    + set (st1 := Legacy.with_effectDeps (Legacy.bpm st, true) st).
      assert (Legacy.timers (Legacy.clearCurrent st1) = []) as Hc.
      { unfold Legacy.clearCurrent, st1. cbn. unfold armed in H.
        destruct (Legacy.iv st) as [i|]; cbn.
        - destruct H as (_ & cb & ->). cbn. rewrite Nat.eqb_refl. reflexivity.
        - apply H. }
      destruct (clearCurrent_frame st1) as (Hb & Ho & He).
      unfold settled_jsx, armed, Legacy.arm. cbn.
      rewrite Hb, Ho, He, Hc. cbn. rewrite Hon. eauto.
    + unfold armed in H. destruct (Legacy.iv st) as [i|] eqn:Hiv.
      * destruct H as [H _]. congruence.
      * unfold settled_jsx, armed. cbn. rewrite Hiv, Hon.
        repeat split. apply H.
Qed.

Lemma effect_fixed (st : Legacy.State) :
  settled_jsx st -> Legacy.effect st = st.
Proof.
  intros [Hd _]. unfold Legacy.effect. rewrite Hd. cbn [fst snd].
  rewrite Z.eqb_refl, Bool.eqb_reflx. reflexivity.
Qed.

(** A handler that touches neither [iv], the timers, [on] nor the recorded
    dependencies keeps [armed]. *)
Lemma armed_react (st st' : Legacy.State) :
  Legacy.iv st' = Legacy.iv st -> Legacy.timers st' = Legacy.timers st ->
  Legacy.on st' = Legacy.on st ->
  Legacy.effectDeps st' = Legacy.effectDeps st ->
  armed st -> armed st'.
Proof. unfold armed. intros -> -> -> ->. auto. Qed.

Lemma step_settled_jsx (st : Legacy.State) (ev : Legacy.Event) :
  settled_jsx st -> settled_jsx (Legacy.step st ev).
Proof.
  intros H. pose proof H as [Hd Hi].
  destruct ev; cbn [Legacy.step].
  - unfold Legacy.start. apply effect_settled. unfold armed. cbn.
    split; [reflexivity|].
    assert (armed (Legacy.with_ctx true st)) as Hi'
      by (apply (armed_react st); auto).
    rewrite (clearCurrent_timers _ Hi').
    destruct (clearCurrent_frame (Legacy.with_ctx true st)) as (_ & _ & ->).
    cbn. rewrite Hd. cbn. eauto.
  - unfold Legacy.stop. apply effect_settled. unfold armed.
    destruct (Legacy.iv st) as [i|] eqn:E; cbn.
    + split; [reflexivity|]. apply clearCurrent_timers, Hi.
    + rewrite E. split; [reflexivity|]. unfold armed in Hi.
      rewrite E in Hi. apply Hi.
  - unfold Legacy.fire. destruct (find _ _) as [t|]; [|exact H].
    assert (settled_jsx (Legacy.effect (Legacy.playBeat st))) as Hp
      by (apply effect_settled, (armed_react st); auto).
    destruct (Legacy.callback t); [exact Hp|].
    destruct (Legacy.ctx st); [exact Hp | exact H].
  - unfold Legacy.onChange. apply effect_settled.
    destruct (JS.parseInt value) as [|[|]|n]; try destruct (_ && _);
      apply (armed_react st); auto.
  - unfold Legacy.onBlur. apply effect_settled.
    destruct (JS.parseInt _) as [|[|]|n]; try destruct (n <? _);
      try destruct (_ <? n); apply (armed_react st); auto.
  - apply effect_settled, (armed_react st); auto.
  - apply effect_settled, (armed_react st); auto.
  - split; [exact Hd | apply (armed_react st); auto].
Qed.

Lemma reachable_settled_jsx (st : Legacy.State) :
  Legacy.reachable st -> settled_jsx st.
Proof.
  induction 1 as [|st ev _ IH]; [|apply step_settled_jsx, IH].
  repeat split; reflexivity.
Qed.

Lemma settled_timers_jsx (st : Legacy.State) :
  settled_jsx st -> (List.length (Legacy.timers st) <= 1)%nat.
Proof.
  intros [_ H]. unfold armed in H. destruct (Legacy.iv st).
  - destruct H as (_ & cb & ->). cbn. lia.
  - destruct H as [_ ->]. cbn. lia.
Qed.

Lemma settled_period_jsx (st : Legacy.State) :
  settled_jsx st -> Legacy.on st = true ->
  exists i cb,
    Legacy.timers st
    = [{| Legacy.id := i; Legacy.period := Legacy.ms (Legacy.bpm st);
          Legacy.callback := cb |}].
Proof.
  intros [Hd H] Hon. unfold armed in H. rewrite Hd in H. cbn in H.
  destruct (Legacy.iv st) as [i|].
  - destruct H as (_ & cb & ->). eauto.
  - destruct H as [H _]. congruence.
Qed.

Lemma iter_reachable (st : App.State) (n : nat) :
  App.reachable st -> App.reachable (Nat.iter n App.start st).
Proof.
  intros H. induction n as [|n IH]; [exact H|].
  cbn. apply (App.reachable_step _ App.Start), IH.
Qed.

Lemma iter_reachable_jsx (st : Legacy.State) (n : nat) :
  Legacy.reachable st -> Legacy.reachable (Nat.iter n Legacy.start st).
Proof.
  intros H. induction n as [|n IH]; [exact H|].
  cbn. apply (Legacy.reachable_step _ Legacy.Start), IH.
Qed.

Lemma run_reachable (evs : list App.Event) :
  App.reachable (App.run App.init evs).
Proof.
  unfold App.run. generalize App.reachable_init. generalize App.init.
  induction evs as [|ev evs IH]; intros st H; [exact H|].
  cbn. apply IH, App.reachable_step, H.
Qed.

(** Two runs, for orientation.  Moving the slider to 100 while playing
    replaces timer 1, armed by [start]'s render, with timer 2 at 600 ms; in
    the first version [start] arms timer 1 itself and the effect that follows
    replaces it at once. *)
Example rearm_on_bpm_change :
  let st := App.run App.init [App.Start; App.SliderChange 100] in
  App.timers (App.browser st) = [{| App.id := 2; App.period := 600 |}] /\
  App.beat st = 1 /\ App.bpmInput st = "100"%string.
Proof. repeat split; vm_compute; reflexivity. Qed.

Example start_arms_twice_jsx :
  Legacy.timers (Legacy.start Legacy.init)
  = [{| Legacy.id := 2; Legacy.period := Legacy.ms 72;
        Legacy.callback := Legacy.FromEffect |}] /\
  Legacy.beat (Legacy.start Legacy.init) = 1.
Proof. split; vm_compute; reflexivity. Qed.

(** ** Ranges of integers *)

Lemma Zrange_In (lo z : Z) (n : nat) :
  lo <= z < lo + Z.of_nat n -> In z (Zrange lo n).
Proof.
  intros H. unfold Zrange. apply in_map_iff.
  exists (Z.to_nat (z - lo)). split; [lia|].
  apply in_seq. lia.
Qed.

(** A check that evaluates to [true] on a whole range holds at each of its
    members. *)
Lemma Zrange_forallb (P : Z -> bool) (lo : Z) (n : nat) :
  forallb P (Zrange lo n) = true ->
  forall z, lo <= z < lo + Z.of_nat n -> P z = true.
Proof.
  intros H z Hz. rewrite forallb_forall in H. apply H, Zrange_In, Hz.
Qed.

(** ** Doubles: signs, order and exact values

    Read off the specification of the kernel's binary64 operations. *)

Lemma valid_exponent (x : float) (s : bool) (m : positive) (e : Z) :
  Prim2SF x = S754_finite s m e -> -1074 <= e.
Proof.
  intros E. pose proof (Prim2SF_valid x) as H. rewrite E in H.
  unfold SpecFloat.valid_binary, bounded, canonical_mantissa, fexp, emin,
    prec, emax in H.
  apply andb_true_iff in H as [H _]. apply Z.eqb_eq in H. lia.
Qed.

(** Rounding keeps the sign it is given. *)
Lemma binary_round_aux_sign (s : bool) (m e : Z) (l : location) :
  match binary_round_aux prec emax s m e l with
  | S754_zero s' | S754_infinity s' | S754_finite s' _ _ => s' = s
  | S754_nan => True
  end.
Proof.
  unfold binary_round_aux.
  destruct (shr_fexp prec emax m e l) as [mrs' e'].
  destruct (shr_fexp prec emax _ e' loc_Exact) as [mrs'' e''].
  destruct (shr_m mrs''); [reflexivity| |exact I].
  destruct (e'' <=? emax - prec); reflexivity.
Qed.

Lemma ltb_not_positive (lo t : float) :
  (0 <? lo)%float = true -> not_positive t -> (lo <? t)%float = false.
Proof.
  rewrite !ltb_spec. change (Prim2SF 0) with (S754_zero false).
  unfold SFltb, not_positive.
  destruct (Prim2SF lo) as [s|[|]| |[|] m e]; cbn; try discriminate;
    destruct (Prim2SF t) as [s'|s'| |s' m' e']; cbn; intros _ H;
    try subst s'; reflexivity.
Qed.

Lemma in_wave_not_positive (t : float) :
  not_positive t -> Ekg.in_wave t = false.
Proof.
  intros H. unfold Ekg.in_wave, Ekg.between.
  rewrite !(ltb_not_positive _ t) by (reflexivity || exact H). reflexivity.
Qed.

Lemma div_not_positive (a b : float) :
  not_positive a -> (0 <? b)%float = true -> not_positive (a / b).
Proof.
  unfold not_positive.
  rewrite ltb_spec, div_spec. change (Prim2SF 0) with (S754_zero false).
  unfold SFltb, SF64div.
  destruct (Prim2SF b) as [s|[|]| |[|] m e]; cbn; try discriminate; intros Ha _;
    destruct (Prim2SF a) as [s'|s'| |s' m' e']; cbn; try exact I;
    try (subst s'; reflexivity).
  subst s'.
  destruct (SFdiv_core_binary prec emax (Z.pos m') e' (Z.pos m) e)
    as [[mz ez] lz].
  pose proof (binary_round_aux_sign (xorb true false) mz ez lz) as H.
  destruct (binary_round_aux _ _ _ _ _ _); auto.
Qed.

(** The remainder has the sign of the dividend. *)
Lemma fmod_not_positive (n d : float) :
  (n <? 0)%float = true -> not_positive (JS.fmod n d).
Proof.
  unfold not_positive.
  rewrite ltb_spec. change (Prim2SF 0) with (S754_zero false).
  unfold JS.fmod, JS.units, JS.signbit, SFltb.
  destruct (Prim2SF n) as [s|[|]| |[|] m e] eqn:En; cbn; try discriminate;
    intros _; try exact I.
  destruct (Prim2SF d) as [s'|s'| |s' m' e'] eqn:Ed.
  - exact I.
  - destruct (is_nan d); [exact I|]. rewrite En. reflexivity.
  - destruct (is_nan d); [exact I|]. rewrite En. reflexivity.
  - destruct (_ =? 0); [exact I|].
    rewrite opp_spec. unfold JS.of_units. rewrite abs_spec.
    destruct (Prim2SF (SF2Prim _)); cbn; auto.
Qed.

Lemma units_positive (n : float) (v : Z) :
  JS.units n = Some v -> 0 < v -> JS.signbit n = false.
Proof.
  unfold JS.units, JS.signbit. intros E Hv.
  destruct (Prim2SF n) as [s|s| |s m e] eqn:En; try discriminate.
  - injection E as <-. lia.
  - injection E as <-. destruct s; [|reflexivity].
    pose proof (valid_exponent n _ _ _ En).
    assert (0 < 2 ^ (e + 1074)) by (apply Z.pow_pos_nonneg; lia). lia.
Qed.

Lemma units_zero (n : float) :
  JS.units n = Some 0 -> exists s, Prim2SF n = S754_zero s.
Proof.
  unfold JS.units. intros E.
  destruct (Prim2SF n) as [s|s| |s m e] eqn:En; try discriminate; [eauto|].
  injection E as E. pose proof (valid_exponent n _ _ _ En).
  assert (0 < 2 ^ (e + 1074)) by (apply Z.pow_pos_nonneg; lia).
  destruct s; lia.
Qed.

Lemma div_zero (a b : float) (s : bool) :
  Prim2SF a = S754_zero s -> not_positive (a / b).
Proof.
  intros E. unfold not_positive. rewrite div_spec, E. unfold SF64div.
  destruct (Prim2SF b); cbn; exact I.
Qed.

Lemma div_nan (a b : float) : Prim2SF a = S754_nan -> not_positive (a / b).
Proof.
  intros E. unfold not_positive. rewrite div_spec, E. exact I.
Qed.

Lemma fmod_zero (n d : float) (s : bool) :
  Prim2SF n = S754_zero s ->
  exists s', Prim2SF (JS.fmod n d) = S754_zero s' \/
             Prim2SF (JS.fmod n d) = S754_nan.
Proof.
  intros E. unfold JS.fmod, JS.units, JS.signbit. rewrite E.
  destruct (Prim2SF d) as [s'|s'| |s' m' e'].
  - exists false. right. reflexivity.
  - destruct (is_nan d); [exists false; right; reflexivity|].
    exists s. left. exact E.
  - destruct (is_nan d); [exists false; right; reflexivity|].
    exists s. left. exact E.
  - destruct (_ =? 0) eqn:Eb; [exists false; right; reflexivity|].
    apply Z.eqb_neq in Eb. rewrite (Z.rem_0_l _ Eb).
    change (JS.of_units (Z.abs 0)) with 0%float.
    destruct s; [exists true|exists false]; left; reflexivity.
Qed.


(** The order of doubles is the order of sign, exponent and mantissa. *)
Lemma lex_Lt (e1 e2 : Z) (m1 m2 : positive) :
  match e1 ?= e2 with
  | Lt => Lt | Gt => Gt | Eq => Pos.compare_cont Eq m1 m2
  end = Lt <-> e1 < e2 \/ e1 = e2 /\ (m1 < m2)%positive.
Proof.
  change (Pos.compare_cont Eq m1 m2) with (m1 ?= m2)%positive.
  destruct (Z.compare_spec e1 e2), (Pos.compare_spec m1 m2);
    split; intros G; try discriminate; try reflexivity; lia.
Qed.

Lemma lex_Gt (e1 e2 : Z) (m1 m2 : positive) :
  match e1 ?= e2 with
  | Lt => Gt | Gt => Lt | Eq => CompOpp (Pos.compare_cont Eq m1 m2)
  end = Lt <-> e2 < e1 \/ e1 = e2 /\ (m2 < m1)%positive.
Proof.
  change (Pos.compare_cont Eq m1 m2) with (m1 ?= m2)%positive.
  destruct (Z.compare_spec e1 e2), (Pos.compare_spec m1 m2);
    split; cbn; intros G; try discriminate; try reflexivity; lia.
Qed.

Lemma SFltb_trans (x y z : spec_float) :
  SFltb x y = true -> SFltb y z = true -> SFltb x z = true.
Proof.
  unfold SFltb.
  destruct x as [[|]|[|]| |[|] m1 e1], y as [[|]|[|]| |[|] m2 e2],
    z as [[|]|[|]| |[|] m3 e3]; cbn; try discriminate; try reflexivity;
    intros H1 H2;
    repeat match goal with
           | H : (match ?c with Lt => _ | Eq => _ | Gt => _ end) = true |- _ =>
               let E := fresh "E" in destruct c eqn:E; try discriminate H;
               clear H
           end;
    repeat match goal with
           | E : _ = Lt |- _ => first [apply lex_Lt in E | apply lex_Gt in E]
           end.
  - assert (e3 < e1 \/ e1 = e3 /\ (m3 < m1)%positive) as H by lia.
    apply lex_Gt in H. rewrite H. reflexivity.
  - assert (e1 < e3 \/ e1 = e3 /\ (m1 < m3)%positive) as H by lia.
    apply lex_Lt in H. rewrite H. reflexivity.
Qed.

Lemma ltb_trans (a b c : float) :
  (a <? b)%float = true -> (b <? c)%float = true -> (a <? c)%float = true.
Proof. rewrite !ltb_spec. apply SFltb_trans. Qed.

(** An interval that ends where another begins, or before, shares no double
    with it. *)
Lemma apart (lo hi lo' hi' t : float) :
  (lo' <? hi)%float = false ->
  Ekg.between lo hi t = true -> Ekg.between lo' hi' t = true -> False.
Proof.
  unfold Ekg.between. intros Hd H1 H2. apply andb_true_iff in H1 as [_ H1].
  apply andb_true_iff in H2 as [H2 _].
  rewrite (ltb_trans _ _ _ H2 H1) in Hd. discriminate.
Qed.

(** Subtracting is adding the opposite. *)
Lemma add_opp (x y : float) : (x + - y = x - y)%float.
Proof.
  apply Prim2SF_inj. rewrite add_spec, sub_spec, opp_spec.
  unfold SF64add, SF64sub, SFadd, SFsub.
  destruct (Prim2SF x) as [[|]|[|]| |sx mx ex],
    (Prim2SF y) as [[|]|[|]| |sy my ey]; cbn; try reflexivity.
  destruct sy; reflexivity.
Qed.

(** ** Rounding to the nearest double

    The operations of binary64 round the exact result to the nearest double.
    The kernel specifies them by the algorithm ([SpecFloat]); what is proved
    here is that the result never passes a double that bounds the exact
    result: a sum, a difference or a product whose exact value lies between
    two doubles is a double between them, a positive double divided by one
    that is not smaller gives at most one, and the comparisons are those of
    the exact values. *)

Lemma digits2_bounds (p : positive) :
  2 ^ (Zpos (digits2_pos p) - 1) <= Zpos p < 2 ^ Zpos (digits2_pos p).
Proof.
  induction p as [p IH|p IH|]; cbn [digits2_pos].
  - rewrite Pos2Z.inj_succ. change (Zpos p~1) with (2 * Zpos p + 1).
    replace (Z.succ (Zpos (digits2_pos p)) - 1)
      with (Z.succ (Zpos (digits2_pos p) - 1)) by lia.
    rewrite !Z.pow_succ_r by lia.
    set (a := 2 ^ (_ - 1)) in *. set (b := 2 ^ Z.pos _) in *.
    clearbody a b. lia.
  - rewrite Pos2Z.inj_succ. change (Zpos p~0) with (2 * Zpos p).
    replace (Z.succ (Zpos (digits2_pos p)) - 1)
      with (Z.succ (Zpos (digits2_pos p) - 1)) by lia.
    rewrite !Z.pow_succ_r by lia.
    set (a := 2 ^ (_ - 1)) in *. set (b := 2 ^ Z.pos _) in *.
    clearbody a b. lia.
  - cbn. lia.
Qed.

Lemma Zdigits2_bounds (m : Z) :
  0 < m -> 2 ^ (Zdigits2 m - 1) <= m < 2 ^ Zdigits2 m.
Proof. destruct m; try lia. intros _. apply digits2_bounds. Qed.

Lemma Zdigits2_pos (m : Z) : 0 < m -> 0 < Zdigits2 m.
Proof. destruct m; cbn; lia. Qed.
































Lemma pow2_le_digits (q d : Z) : 0 < q -> q < 2 ^ d -> Zdigits2 q <= d.
Proof.
  intros Hq Hd. pose proof (Zdigits2_bounds q Hq) as [Hl _].
  pose proof (Zdigits2_pos q Hq).
  destruct (Z_le_gt_dec (Zdigits2 q) d) as [|Hgt]; [assumption|].
  destruct (Z_lt_le_dec d 0) as [Hneg|Hpos].
  - rewrite Z.pow_neg_r in Hd by assumption. lia.
  - assert (2 ^ d <= 2 ^ (Zdigits2 q - 1)) by (apply Z.pow_le_mono_r; lia).
    lia.
Qed.





(** *** Order *)

















(** ** The baseline *)

Lemma getEKGY_outside (sin : float -> float) (x offset bw mid : float) :
  Ekg.in_wave (Ekg.phase x offset bw) = false ->
  Ekg.getEKGY sin x offset bw mid = mid.
Proof.
  unfold Ekg.getEKGY, Ekg.in_wave, Ekg.between. fold (Ekg.phase x offset bw).
  set (t := Ekg.phase x offset bw). intros H.
  repeat (apply orb_false_iff in H as [H ?]).
  repeat match goal with E : _ && _ = false |- _ => rewrite E; clear E end.
  reflexivity.
Qed.

Lemma phase_negative (x offset bw : float) :
  (x + offset <? 0)%float = true -> (0 <? bw)%float = true ->
  not_positive (Ekg.phase x offset bw).
Proof.
  intros Hn Hb. apply div_not_positive; [|exact Hb].
  apply fmod_not_positive, Hn.
Qed.

(** * The claims *)

(** ** The waveform against its piecewise definition *)

Section Pieces.
Import Ekg.
Local Open Scope float_scope.

(** The source's chain of tests, on the intervals by name. *)
Lemma getEKGY_chain (sin : float -> float) (x offset bw mid : float) :
  getEKGY sin x offset bw mid
  = let t := phase x offset bw in
    if between 0.10 0.18 t then mid - sin (((t - 0.1) / 0.08) * PI) * 6
    else if between 0.22 0.24 t then mid + ((t - 0.22) / 0.02) * 9
    else if between 0.24 0.28 t then mid + 9 - ((t - 0.24) / 0.04) * 46
    else if between 0.28 0.32 t then mid - 37 + ((t - 0.28) / 0.04) * 48
    else if between 0.32 0.34 t then mid + 11 - ((t - 0.32) / 0.02) * 11
    else if between 0.40 0.52 t then
      mid - sin (((t - 0.4) / 0.12) * PI) * 10
    else mid.
Proof. reflexivity. Qed.

(** C1, as stated, fails in two ways.  The intervals of the code are those
    between the doubles nearest the decimals: the double 0.28 is above 0.28,
    so that a phase equal to it is inside (0.28, 0.32), where the code
    returns the baseline.  And the specification calls the bump on
    (0.10, 0.18) upward and the one on (0.40, 0.52) downward, while the code
    gives both the same sign: with a sine of 1 at the top of each bump (beat
    width 100, x = 14 and x = 46) the code returns -6 and -10 for [mid = 0],
    which no direction of upward makes the definition do. *)
Lemma getEKGY_spec_mismatch :
  (strictly_between 28 32 100 (phase 0.28 0 1) /\
   forall sin mid, getEKGY sin 0.28 0 1 mid = mid) /\
  forall sin : float -> float,
    sin ((phase 14 0 100 - 0.1) / 0.08 * PI) = 1 ->
    sin ((phase 46 0 100 - 0.4) / 0.12 * PI) = 1 ->
    getEKGY sin 14 0 100 0 = -6 /\ getEKGY sin 46 0 100 0 = -10 /\
    forall up,
      ~ (getEKGY_spec sin up (phase 14 0 100) 0 (getEKGY sin 14 0 100 0) /\
         getEKGY_spec sin up (phase 46 0 100) 0 (getEKGY sin 46 0 100 0)).
Proof.
  split.
  - split.
    + eexists. split; [vm_compute; reflexivity|].
      vm_compute. split; reflexivity.
    + intros sin mid. apply getEKGY_outside. vm_compute. reflexivity.
  - intros sin H1 H2.
    assert (getEKGY sin 14 0 100 0
            = 0 - sin ((phase 14 0 100 - 0.1) / 0.08 * PI) * 6) as E1
      by reflexivity.
    assert (getEKGY sin 46 0 100 0
            = 0 - sin ((phase 46 0 100 - 0.4) / 0.12 * PI) * 10) as E2
      by reflexivity.
    rewrite E1, E2, H1, H2.
    split; [reflexivity|]. split; [reflexivity|].
    intros up [(B1 & _) (_ & _ & _ & _ & _ & B6 & _)].
    specialize (B1 eq_refl). specialize (B6 eq_refl).
    unfold half_sine in B1, B6. rewrite H1 in B1. rewrite H2 in B6.
    destruct up; cbn [toward opposite] in B1, B6.
    + apply (f_equal Prim2SF) in B1. vm_compute in B1. discriminate B1.
    + apply (f_equal Prim2SF) in B6. vm_compute in B6. discriminate B6.
Qed.

(** Refutes the true branch of the next test of the chain from [H], which
    places the phase in a later interval. *)
Ltac skip H :=
  match goal with
  | |- (if between ?lo ?hi ?t then _ else _) = _ =>
      let E := fresh "E" in
      destruct (between lo hi t) eqn:E;
      [exfalso;
       match type of H with
       | between ?lo' ?hi' _ = true =>
           exact (apart lo hi lo' hi' t eq_refl E H)
       end|]
  end.

(** C1, amended: for every [x], [offset], [bw] and [mid], with the phase [t]
    computed in binary64 with JavaScript's [%], [getEKGY] is the piecewise
    definition of the specification read on doubles - the intervals are those
    between the doubles nearest the decimals, which are disjoint, so that the
    order of the cases does not matter, and each piece is evaluated in
    binary64 - in which both half-sine bumps, the one on (0.10, 0.18) like
    the one on (0.40, 0.52), point towards smaller [y]. *)
Theorem getEKGY_waveform (sin : float -> float) (x offset bw mid : float) :
  waveform sin Smaller Smaller (phase x offset bw) mid
    (getEKGY sin x offset bw mid).
Proof.
  unfold waveform.
  repeat split; intros H; try (apply getEKGY_outside, H);
    rewrite getEKGY_chain; cbv zeta.
  - rewrite H. reflexivity.
  - skip H. rewrite H. reflexivity.
  - do 2 skip H. rewrite H. reflexivity.
  - do 3 skip H. rewrite H.
    change (9 - 46) with (- (37)). rewrite add_opp. reflexivity.
  - do 4 skip H. rewrite H. reflexivity.
  - do 5 skip H. rewrite H. reflexivity.
Qed.

End Pieces.

(** ** Zones *)

(** C2: for every BPM, [getBpmZone] answers with the zone of the band the
    value lies in - below 60 Bradycardia, 60 to 100 Resting, above 100 up to
    140 Moderate, above 140 up to 170 Vigorous, above 170 Maximum - and the
    eight listed values land in the listed zones. *)
Theorem getBpmZone_bands (bpm : Z) :
  (label (getBpmZone bpm) = "Bradycardia"%string <-> bpm < 60) /\
  (label (getBpmZone bpm) = "Resting"%string <-> 60 <= bpm <= 100) /\
  (label (getBpmZone bpm) = "Moderate"%string <-> 100 < bpm <= 140) /\
  (label (getBpmZone bpm) = "Vigorous"%string <-> 140 < bpm <= 170) /\
  (label (getBpmZone bpm) = "Maximum"%string <-> 170 < bpm) /\
  map (fun b => label (getBpmZone b)) [45; 60; 100; 101; 140; 141; 170; 171]
  = ["Bradycardia"; "Resting"; "Resting"; "Moderate"; "Moderate"; "Vigorous";
     "Vigorous"; "Maximum"]%string.
Proof.
  unfold getBpmZone.
  destruct (Z.ltb_spec bpm 60);
    [|destruct (Z.leb_spec bpm 100);
      [|destruct (Z.leb_spec bpm 140); [|destruct (Z.leb_spec bpm 170)]]];
    cbn [label]; repeat split; intros; try lia; try discriminate;
    reflexivity.
Qed.

(** ** The beat interval *)

Lemma within_one_ulpb_sound (d q : float) :
  within_one_ulpb d q = true -> within_one_ulp d q.
Proof.
  unfold within_one_ulpb, within_one_ulp. intros H.
  apply orb_true_iff in H as [H|H]; [apply orb_true_iff in H as [H|H]|];
    apply Leibniz.eqb_spec in H; auto.
Qed.

(** C3, as stated, fails at BPM = 33: the delay [(60 / 33) * 1000] is the
    double 1818.181818181818, one unit in the last place below the double
    1818.1818181818182 that [60000 / 33] rounds to. *)
Lemma delay_33_inexact :
  App.delay true 33 = Some 1818.181818181818%float /\
  Legacy.ms 33 = 1818.181818181818%float /\
  (60000 / JS.Z2F 33)%float = 1818.1818181818182%float /\
  (1818.181818181818 <? 1818.1818181818182)%float = true.
Proof. repeat split; vm_compute; reflexivity. Qed.

(** C3, amended: for every integer BPM in [30, 220], the one timer that is
    active while playing, in either version, has the period
    [(60 / bpm) * 1000] computed in binary64, and that double is within one
    unit in the last place of the double [60000 / bpm]. *)
Theorem delay_within_one_ulp (bpm : Z) :
  MIN_BPM <= bpm <= MAX_BPM ->
  App.delay true bpm = Some (Legacy.ms bpm) /\
  within_one_ulp (Legacy.ms bpm) (60000 / JS.Z2F bpm)%float /\
  (forall st : App.State,
      App.reachable st -> App.isPlaying st = true -> App.bpm st = bpm ->
      exists i,
        App.timers (App.browser st)
        = [{| App.id := i; App.period := Legacy.ms bpm |}]) /\
  (forall st : Legacy.State,
      Legacy.reachable st -> Legacy.on st = true -> Legacy.bpm st = bpm ->
      exists i cb,
        Legacy.timers st
        = [{| Legacy.id := i; Legacy.period := Legacy.ms bpm;
              Legacy.callback := cb |}]).
Proof.
  intros H. split; [reflexivity|]. split; [|split].
  - apply within_one_ulpb_sound.
    apply (Zrange_forallb
             (fun b => within_one_ulpb (Legacy.ms b) (60000 / JS.Z2F b)%float)
             30 191); [vm_compute; reflexivity|].
    unfold MIN_BPM, MAX_BPM in H. lia.
  - intros st Hr Hp <-. apply settled_period; [apply reachable_settled|];
      assumption.
  - intros st Hr Hp <-.
    apply settled_period_jsx; [apply reachable_settled_jsx|]; assumption.
Qed.

Lemma delay_within_one_ulp_witness :
  MIN_BPM <= 33 <= MAX_BPM /\
  within_one_ulp (Legacy.ms 33) (60000 / JS.Z2F 33)%float.
Proof.
  assert (MIN_BPM <= 33 <= MAX_BPM) as H by (unfold MIN_BPM, MAX_BPM; lia).
  split; [exact H | exact (proj1 (proj2 (delay_within_one_ulp 33 H)))].
Defined.

(** ** Periodicity of the waveform *)

Section Periodicity.
Import Ekg.
Local Open Scope float_scope.

(** C4, as stated, fails in two ways.  For a negative [x + offset] less than
    one beat width below zero the phase is negative and the trace on the
    baseline, whatever it is one beat width later: at BPM 72, on the baseline
    28, it is 28 at [x = -70] and on the upstroke at [x = 30].  And the sum
    [x + bw] is rounded: at BPM 54 the beat width is 133.33333333333334, and
    with an offset of 3 the pixel 301 is on the downstroke, just before the
    corner at phase 0.28, while one beat width further the phase is the
    double 0.28 itself, on the baseline. *)
Lemma getEKGY_not_periodic :
  (forall sin,
     getEKGY sin (-70) 0 (beatWidth 72) 28 = 28 /\
     getEKGY sin (-70 + beatWidth 72) 0 (beatWidth 72) 28
     = 14.999999999999954 /\
     getEKGY sin (-70) 0 (beatWidth 72) 28
     <> getEKGY sin (-70 + beatWidth 72) 0 (beatWidth 72) 28) /\
  (forall sin,
     getEKGY sin 301 3 (beatWidth 54) 28 = -8.9999999999998437 /\
     getEKGY sin (301 + beatWidth 54) 3 (beatWidth 54) 28 = 28 /\
     getEKGY sin 301 3 (beatWidth 54) 28
     <> getEKGY sin (301 + beatWidth 54) 3 (beatWidth 54) 28).
Proof.
  split; intros sin.
  - assert (getEKGY sin (-70) 0 (beatWidth 72) 28 = 28) as -> by reflexivity.
    assert (getEKGY sin (-70 + beatWidth 72) 0 (beatWidth 72) 28
            = 14.999999999999954) as -> by reflexivity.
    repeat split. intros E. apply (f_equal Prim2SF) in E.
    vm_compute in E. discriminate E.
  - assert (getEKGY sin 301 3 (beatWidth 54) 28 = -8.9999999999998437) as ->
      by reflexivity.
    assert (getEKGY sin (301 + beatWidth 54) 3 (beatWidth 54) 28 = 28) as ->
      by reflexivity.
    repeat split. intros E. apply (f_equal Prim2SF) in E.
    vm_compute in E. discriminate E.
Qed.

(** C4, amended: [getEKGY] takes the same value at [x] and at [x + bw]
    whenever [x + offset] is not negative, the beat width is positive, and
    the sum [(x + bw) + offset] is exact, its value being that of
    [x + offset] plus that of [bw] (the values are in units of the least
    positive double); and also whenever [x + offset] and [(x + bw) + offset]
    are both negative, where both values are the baseline. *)
Theorem getEKGY_periodic (sin : float -> float) (x offset bw mid : float) :
  (forall a b,
     JS.units (x + offset) = Some a -> JS.units bw = Some b ->
     (0 <= a)%Z -> (0 < b)%Z ->
     JS.units (x + bw + offset) = Some (a + b)%Z ->
     getEKGY sin (x + bw) offset bw mid = getEKGY sin x offset bw mid) /\
  ((x + offset <? 0) = true -> (x + bw + offset <? 0) = true ->
   (0 <? bw) = true ->
   getEKGY sin (x + bw) offset bw mid = getEKGY sin x offset bw mid).
Proof.
  split.
  - intros a b Ha Hb Ha0 Hb0 Hab.
    destruct (Z.eq_dec a 0) as [->|Hne].
    + (* the phase is a zero at [x] and at [x + bw] *)
      rewrite !getEKGY_outside; [reflexivity|..];
        apply in_wave_not_positive; unfold phase.
      * destruct (units_zero _ Ha) as [s Hs].
        destruct (fmod_zero _ bw s Hs) as [s' [H|H]].
        -- apply (div_zero _ _ s'), H.
        -- apply div_nan, H.
      * unfold JS.fmod. rewrite Hab, Hb.
        rewrite (proj2 (Z.eqb_neq b 0)) by lia.
        rewrite (units_positive _ _ Hab) by lia.
        rewrite Z.add_0_l, Z.rem_same by lia.
        change (JS.of_units (Z.abs 0)) with 0.
        apply (div_zero _ _ false). reflexivity.
    + unfold getEKGY.
      assert (JS.fmod (x + bw + offset) bw = JS.fmod (x + offset) bw) as ->;
        [|reflexivity].
      unfold JS.fmod. rewrite Ha, Hb, Hab.
      rewrite (units_positive _ _ Ha), (units_positive _ _ Hab) by lia.
      assert (Z.rem (a + b) b = Z.rem a b) as ->; [|reflexivity].
      rewrite !Z.rem_mod_nonneg by lia.
      rewrite <- (Z.mul_1_l b) at 1. apply Z.mod_add. lia.
  - intros H1 H2 Hb.
    rewrite !getEKGY_outside; [reflexivity|..];
      apply in_wave_not_positive, phase_negative; assumption.
Qed.

Lemma getEKGY_periodic_witness :
  getEKGY (fun _ => 0) (14 + beatWidth 72) 3 (beatWidth 72) 28
  = getEKGY (fun _ => 0) 14 3 (beatWidth 72) 28.
Proof.
  apply (proj1 (getEKGY_periodic (fun _ => 0) 14 3 (beatWidth 72) 28)
           (17 * 2 ^ 1074)%Z (100 * 2 ^ 1074)%Z);
    vm_compute; (reflexivity || discriminate).
Defined.

End Periodicity.

(** ** The audio schedule *)

(** C5: for every trigger time [t], whatever the state's BPM, the S2
    oscillator is started at [t + 0.13]; its frequency is set to 75 Hz there
    and ramps to 35 Hz, and its gain ramps to 0.001, both by 0.1 s after that
    start; it is stopped 0.12 s after that start.  This holds for the sound
    of both versions, and the beat a state plays is that sound at the state's
    audio clock, whatever its BPM. *)
Theorem S2_schedule (t : float) :
  S2_shape (Audio.createHeartbeatSound t) t /\
  S2_shape (Audio.createHeartbeatSound_jsx t) t /\
  (forall (st : App.State) (b : Z),
      App.audio (App.browser (App.playBeat (App.with_bpm b st)))
      = Audio.createHeartbeatSound (App.currentTime (App.browser st))
          :: App.audio (App.browser st)) /\
  (forall (st : Legacy.State) (b : Z),
      Legacy.audio
        (Legacy.playBeat
           (Legacy.with_react b (Legacy.inp st) (Legacy.on st) st))
      = Audio.createHeartbeatSound_jsx (Legacy.currentTime st)
          :: Legacy.audio st).
Proof.
  unfold S2_shape. repeat split; reflexivity.
Qed.

(** ** The BPM text input *)

Lemma clamp_cases (n : Z) :
  (n < MIN_BPM -> clamp n = MIN_BPM) /\
  (MAX_BPM < n -> clamp n = MAX_BPM) /\
  (MIN_BPM <= n <= MAX_BPM -> clamp n = n).
Proof. unfold clamp, MIN_BPM, MAX_BPM. lia. Qed.

(** The two tests of the blur handlers select the outcome the specification
    describes. *)
Lemma blur_tests (n : Z) (before : Z * string) :
  (if n <? MIN_BPM then (MIN_BPM, JS.String_of MIN_BPM)
   else if MAX_BPM <? n then (MAX_BPM, JS.String_of MAX_BPM)
   else before)
  = blur_outcome (JS.Int n) before.
Proof.
  unfold blur_outcome. destruct (clamp_cases n) as (Hlo & Hhi & _).
  destruct (Z.ltb_spec n MIN_BPM) as [H|H].
  - rewrite (proj2 (Z.leb_gt MIN_BPM n)) by lia. cbn [andb].
    rewrite Hlo by lia. reflexivity.
  - rewrite (proj2 (Z.leb_le MIN_BPM n)) by lia. cbn [andb].
    destruct (Z.ltb_spec MAX_BPM n) as [H'|H'].
    + rewrite (proj2 (Z.leb_gt n MAX_BPM)) by lia.
      rewrite Hhi by lia. reflexivity.
    + rewrite (proj2 (Z.leb_le n MAX_BPM)) by lia. reflexivity.
Qed.

Lemma handleInputBlur_outcome (st : App.State) :
  (App.bpm (App.handleInputBlur st), App.bpmInput (App.handleInputBlur st))
  = blur_outcome (JS.parseInt (App.bpmInput st))
      (App.bpm st, App.bpmInput st).
Proof.
  unfold App.handleInputBlur.
  rewrite (proj1 (commit_react _)), (proj1 (proj2 (commit_react _))).
  destruct (JS.parseInt (App.bpmInput st)) as [|[|]|n]; [reflexivity..|].
  rewrite <- blur_tests.
  destruct (n <? MIN_BPM); [reflexivity|].
  destruct (MAX_BPM <? n); reflexivity.
Qed.

Lemma onBlur_outcome (st : Legacy.State) :
  (Legacy.bpm (Legacy.onBlur st), Legacy.inp (Legacy.onBlur st))
  = blur_outcome (JS.parseInt (Legacy.inp st))
      (Legacy.bpm st, Legacy.inp st).
Proof.
  unfold Legacy.onBlur.
  rewrite (proj1 (effect_react _)), (proj1 (proj2 (effect_react _))).
  destruct (JS.parseInt (Legacy.inp st)) as [|[|]|n]; [reflexivity..|].
  rewrite <- blur_tests.
  destruct (n <? MIN_BPM); [reflexivity|].
  destruct (MAX_BPM <? n); reflexivity.
Qed.

(** Typing sets the text, and the BPM when the text parses in range. *)
Lemma handleInputChange_sets (value : string) (st : App.State) :
  App.bpmInput (App.handleInputChange value st) = value /\
  App.bpm (App.handleInputChange value st)
  = match JS.parseInt value with
    | JS.Int n => if (MIN_BPM <=? n) && (n <=? MAX_BPM) then n else App.bpm st
    | _ => App.bpm st
    end.
Proof.
  unfold App.handleInputChange.
  rewrite (proj1 (commit_react _)), (proj1 (proj2 (commit_react _))).
  destruct (JS.parseInt value) as [| |n]; [split; reflexivity..|].
  destruct (_ && _); split; reflexivity.
Qed.

Lemma onChange_sets (value : string) (st : Legacy.State) :
  Legacy.inp (Legacy.onChange value st) = value /\
  Legacy.bpm (Legacy.onChange value st)
  = match JS.parseInt value with
    | JS.Int n =>
        if (MIN_BPM <=? n) && (n <=? MAX_BPM) then n else Legacy.bpm st
    | _ => Legacy.bpm st
    end.
Proof.
  unfold Legacy.onChange.
  rewrite (proj1 (effect_react _)), (proj1 (proj2 (effect_react _))).
  destruct (JS.parseInt value) as [| |n]; [split; reflexivity..|].
  destruct (_ && _); split; reflexivity.
Qed.

(** C6: on blur, in both versions, text that parses to an integer in
    [30, 220] is kept together with the BPM (which is that integer when the
    text was typed); otherwise the BPM becomes the nearest bound and the text
    its decimal form, the lower bound for text that does not parse.  Typing
    "5" and leaving the field gives 30, typing "999" gives 220. *)
Theorem handleInputBlur_clamps (st : App.State) (lst : Legacy.State) :
  (App.bpm (App.handleInputBlur st), App.bpmInput (App.handleInputBlur st))
  = blur_outcome (JS.parseInt (App.bpmInput st))
      (App.bpm st, App.bpmInput st) /\
  (Legacy.bpm (Legacy.onBlur lst), Legacy.inp (Legacy.onBlur lst))
  = blur_outcome (JS.parseInt (Legacy.inp lst))
      (Legacy.bpm lst, Legacy.inp lst) /\
  (forall (value : string) (n : Z),
      JS.parseInt value = JS.Int n -> MIN_BPM <= n <= MAX_BPM ->
      let st' := App.handleInputBlur (App.handleInputChange value st) in
      let lst' := Legacy.onBlur (Legacy.onChange value lst) in
      (App.bpm st', App.bpmInput st') = (n, value) /\
      (Legacy.bpm lst', Legacy.inp lst') = (n, value)) /\
  (let st' := App.handleInputBlur (App.handleInputChange "5" st) in
   let lst' := Legacy.onBlur (Legacy.onChange "5" lst) in
   (App.bpm st', App.bpmInput st') = (30, "30"%string) /\
   (Legacy.bpm lst', Legacy.inp lst') = (30, "30"%string)) /\
  (let st' := App.handleInputBlur (App.handleInputChange "999" st) in
   let lst' := Legacy.onBlur (Legacy.onChange "999" lst) in
   (App.bpm st', App.bpmInput st') = (220, "220"%string) /\
   (Legacy.bpm lst', Legacy.inp lst') = (220, "220"%string)).
Proof.
  split; [apply handleInputBlur_outcome|].
  split; [apply onBlur_outcome|].
  split; [|split]; cbv zeta.
  - intros value n Hp Hr.
    rewrite handleInputBlur_outcome, onBlur_outcome.
    destruct (handleInputChange_sets value st) as [-> ->].
    destruct (onChange_sets value lst) as [-> ->].
    rewrite Hp. unfold blur_outcome.
    rewrite (proj2 (Z.leb_le MIN_BPM n)), (proj2 (Z.leb_le n MAX_BPM)) by lia.
    split; reflexivity.
  - rewrite handleInputBlur_outcome, onBlur_outcome.
    destruct (handleInputChange_sets "5" st) as [-> ->].
    destruct (onChange_sets "5" lst) as [-> ->].
    split; reflexivity.
  - rewrite handleInputBlur_outcome, onBlur_outcome.
    destruct (handleInputChange_sets "999" st) as [-> ->].
    destruct (onChange_sets "999" lst) as [-> ->].
    split; reflexivity.
Qed.

(** ** The throttled visual beat *)

(** Over the whole BPM range the throttle factor is 2 above 180 and absent
    below: checked on the 191 values in binary64. *)
Lemma visualBeat_range (bpm beat : Z) :
  MIN_BPM <= bpm <= MAX_BPM ->
  App.visualBeat bpm beat = if 180 <? bpm then beat / 2 else beat.
Proof.
  intros H. unfold App.visualBeat; cbv zeta.
  pose (ok := fun b : Z =>
    let bps := (JS.Z2F b / 60)%float in
    if (App.MAX_VISUAL_FLASHES_PER_SEC <? bps)%float
    then (180 <? b) && (JS.ceil (bps / App.MAX_VISUAL_FLASHES_PER_SEC) =? 2)
    else negb (180 <? b)).
  assert (ok bpm = true) as Hok.
  { apply (Zrange_forallb ok 30 191); [vm_compute; reflexivity|].
    unfold MIN_BPM, MAX_BPM in H. lia. }
  unfold ok in Hok; cbv zeta in Hok.
  destruct (_ <? _)%float.
  - apply andb_true_iff in Hok as [-> Hc]. apply Z.eqb_eq in Hc.
    rewrite Hc. reflexivity.
  - apply negb_true_iff in Hok. rewrite Hok. reflexivity.
Qed.

Lemma distinct_incl (l l' : list Z) :
  (forall x, In x l -> In x l') -> (distinct l <= List.length l')%nat.
Proof.
  intros H. unfold distinct. apply NoDup_incl_length.
  - apply NoDup_nodup.
  - intros x Hx. apply H. apply nodup_In in Hx. exact Hx.
Qed.

(** Up to five consecutive integers have at most three distinct halves, and
    the half changes at most twice along them. *)
Lemma halves_of_a_window (b : Z) (m : nat) :
  (m <= 4)%nat ->
  (distinct (map (fun x => Z.div x 2) (beats_from b m)) <= 3)%nat /\
  (changes (map (fun x => Z.div x 2) (beats_from b m)) <= 2)%nat.
Proof.
  intros Hm. split.
  - apply (distinct_incl _ [b / 2; b / 2 + 1; b / 2 + 2]).
    intros x Hx. apply in_map_iff in Hx as (y & <- & Hy).
    unfold beats_from, Zrange in Hy.
    apply in_map_iff in Hy as (k & <- & Hk). apply in_seq in Hk.
    cbn [In]. Z.div_mod_to_equations. lia.
  - destruct m as [|[|[|[|[|m]]]]]; [..|lia];
      cbn [beats_from Zrange seq map changes];
      repeat match goal with
             | |- context [?a =? ?b] => destruct (Z.eqb_spec a b)
             end;
      cbn [Nat.add]; try lia;
      exfalso; Z.div_mod_to_equations; lia.
Qed.




(** ** The playing / stopped machine *)

(** C8: in every state either version can reach, [stop] while stopped
    returns the state itself (timers, BPM, beat counter and playing flag
    included), and after any number of [start] calls in a row at most one
    interval timer is active. *)
Theorem stop_idempotent_start_one_timer (st : App.State) (lst : Legacy.State)
  (n : nat) :
  App.reachable st -> Legacy.reachable lst ->
  (App.isPlaying st = false -> App.stop st = st) /\
  (Legacy.on lst = false -> Legacy.stop lst = lst) /\
  (List.length (App.timers (App.browser (Nat.iter n App.start st))) <= 1)%nat /\
  (List.length (Legacy.timers (Nat.iter n Legacy.start lst)) <= 1)%nat.
Proof.
  intros Hr Hl. repeat split.
  - intros Hp. unfold App.stop.
    replace (App.with_isPlaying false st) with st
      by (destruct st; cbn in *; subst; reflexivity).
    apply commit_fixed, reachable_settled, Hr.
  - intros Hp. pose proof (reachable_settled_jsx lst Hl) as Hs.
    unfold Legacy.stop. pose proof Hs as [Hd Hi]. unfold armed in Hi.
    destruct (Legacy.iv lst) as [i|] eqn:E; [destruct Hi; congruence|].
    replace (Legacy.with_react (Legacy.bpm lst) (Legacy.inp lst) false lst)
      with lst by (destruct lst; cbn in *; subst; reflexivity).
    apply effect_fixed, Hs.
  - apply settled_timers, reachable_settled, iter_reachable, Hr.
  - apply settled_timers_jsx, reachable_settled_jsx, iter_reachable_jsx, Hl.
Qed.

Lemma stop_idempotent_start_one_timer_witness :
  App.stop App.init = App.init /\
  (List.length
     (App.timers (App.browser (Nat.iter 3 App.start App.init))) <= 1)%nat.
Proof.
  pose proof (stop_idempotent_start_one_timer App.init Legacy.init 3
                App.reachable_init Legacy.reachable_init) as (H1 & _ & H2 & _).
  split; [exact (H1 eq_refl) | exact H2].
Defined.

Lemma stop_frame (st : App.State) :
  App.beat (App.stop st) = App.beat st /\
  App.off (App.ekg (App.stop st)) = App.off (App.ekg st) /\
  App.isPlaying (App.stop st) = false /\
  App.bpm (App.stop st) = App.bpm st /\
  App.dimensions (App.ekg (App.stop st)) = App.dimensions (App.ekg st).
Proof.
  unfold App.stop.
  destruct (commit_react (App.with_isPlaying false st))
    as (-> & _ & -> & -> & _).
  destruct (commit_parts (App.with_isPlaying false st)) as (_ & _ & ->).
  cbn [App.with_isPlaying App.bpm App.isPlaying App.beat App.ekg].
  rewrite EKG_effect_off, EKG_effect_dimensions.
  repeat split.
  destruct (App.ekgDeps_eqb _ _); [reflexivity|].
  destruct (_ =? 0)%float; reflexivity.
Qed.

Lemma start_frame (st : App.State) :
  settled st ->
  App.beat (App.start st) = App.beat st + 1 /\
  App.off (App.ekg (App.start st))
  = if App.isPlaying st then App.off (App.ekg st)
    else if (fst (App.dimensions (App.ekg st)) =? 0)%float
         then App.off (App.ekg st)
         else JS.fmod (App.off (App.ekg st) + 1.5)
                (Ekg.beatWidth (App.bpm st)).
Proof.
  intros (_ & He & Ha & _). unfold App.start. rewrite Ha.
  destruct (commit_react (App.with_isPlaying true (App.playBeat st)))
    as (_ & _ & _ & -> & _).
  destruct (commit_parts (App.with_isPlaying true (App.playBeat st)))
    as (_ & _ & ->).
  cbn [App.with_isPlaying App.playBeat App.with_beat App.with_browser
       App.bpm App.isPlaying App.beat App.ekg].
  rewrite EKG_effect_off, He. cbn [App.ekgDeps_eqb].
  rewrite Z.eqb_refl, Nat.eqb_refl.
  split; [reflexivity|]. destruct (App.isPlaying st); reflexivity.
Qed.

(** The mounted component once its canvas has been measured, stopped. *)
Lemma resize_init :
  let st := App.resize 300 56 App.init in
  App.isPlaying st = false /\ App.bpm st = 162 /\
  App.dimensions (App.ekg st) = (300%float, 56%float) /\
  App.off (App.ekg st) = 0%float.
Proof.
  cbv zeta. repeat split.
Qed.

(** C9, as stated, fails on [start]: from the mounted state, whose beat
    counter is 0, [start] leaves the counter at 1; and once the canvas has
    been measured, the redraw that follows it moves the scroll offset from 0
    to 1.5. *)
Lemma start_changes_beat :
  (App.beat App.init = 0 /\ App.beat (App.start App.init) = 1) /\
  (App.off (App.ekg (App.resize 300 56 App.init)) = 0%float /\
   App.off (App.ekg (App.start (App.resize 300 56 App.init))) = 1.5%float).
Proof.
  split; [split; [reflexivity|]|].
  - destruct (start_frame App.init (reachable_settled _ App.reachable_init))
      as [-> _].
    reflexivity.
  - destruct resize_init as (Hp & Hb & Hd & Ho).
    split; [exact Ho|].
    destruct (start_frame (App.resize 300 56 App.init)) as [_ ->].
    { apply reachable_settled, (App.reachable_step _ (App.Resize 300 56)),
        App.reachable_init. }
    rewrite Hp, Hb, Hd, Ho. reflexivity.
Qed.

(** C9, amended: in every reachable state, [stop] leaves the beat counter
    and the scroll offset as they are; [start] resets neither: it adds one to
    the beat counter (the first beat is played at once) and the scroll offset
    goes on from where it was, advanced by the one frame step of the redraw
    that follows the transition when the canvas has a width.  So a stop
    followed by a restart leaves the counter one above, and the offset one
    frame step past, their values before the stop. *)
Theorem start_stop_keep_beat_and_offset (st : App.State) :
  App.reachable st ->
  (App.beat (App.stop st) = App.beat st /\
   App.off (App.ekg (App.stop st)) = App.off (App.ekg st)) /\
  (App.beat (App.start st) = App.beat st + 1 /\
   App.off (App.ekg (App.start st))
   = if App.isPlaying st then App.off (App.ekg st)
     else if (fst (App.dimensions (App.ekg st)) =? 0)%float
          then App.off (App.ekg st)
          else JS.fmod (App.off (App.ekg st) + 1.5)
                 (Ekg.beatWidth (App.bpm st))) /\
  (App.beat (App.start (App.stop st)) = App.beat st + 1 /\
   App.off (App.ekg (App.start (App.stop st)))
   = if (fst (App.dimensions (App.ekg st)) =? 0)%float
     then App.off (App.ekg st)
     else JS.fmod (App.off (App.ekg st) + 1.5)
            (Ekg.beatWidth (App.bpm st))).
Proof.
  intros Hr.
  destruct (stop_frame st) as (Hb & Ho & Hp & Hm & Hd).
  split; [split; assumption|].
  split; [apply start_frame, reachable_settled, Hr|].
  destruct (start_frame (App.stop st)) as [-> ->].
  { apply reachable_settled, (App.reachable_step _ App.Stop), Hr. }
  rewrite Hb, Ho, Hp, Hm, Hd. split; reflexivity.
Qed.

Lemma start_stop_keep_beat_and_offset_witness :
  App.reachable (App.start App.init) /\
  App.beat (App.start (App.stop (App.start App.init))) = 2.
Proof.
  assert (App.reachable (App.start App.init)) as Hr
    by exact (App.reachable_step _ App.Start App.reachable_init).
  split; [exact Hr|].
  destruct (start_stop_keep_beat_and_offset _ Hr) as (_ & _ & -> & _).
  destruct (start_stop_keep_beat_and_offset _ App.reachable_init)
    as (_ & (-> & _) & _).
  reflexivity.
Defined.

(** ** Bounds of the waveform *)

Section Bounds.
Import Ekg.
Local Open Scope float_scope.




End Bounds.

(** * Further properties *)

(** ** The text the handlers write *)


(** ** What one event does to the component *)

Lemma useInterval_frame (d : option float) (h : App.Interval)
  (b : App.Browser) :
  App.audio (snd (App.useInterval d h b)) = App.audio b /\
  App.currentTime (snd (App.useInterval d h b)) = App.currentTime b.
Proof.
  unfold App.useInterval. destruct (JS.Object_is _ _); [split; reflexivity|].
  destruct (App.cleanup h), d; split; reflexivity.
Qed.

Lemma commit_browser (st : App.State) :
  App.audio (App.browser (App.commit st)) = App.audio (App.browser st) /\
  App.currentTime (App.browser (App.commit st))
  = App.currentTime (App.browser st).
Proof.
  rewrite (proj1 (proj2 (commit_parts st))). apply useInterval_frame.
Qed.

(** The BPM and the text after an event. *)
Lemma step_bpm_text (st : App.State) (ev : App.Event) :
  (App.bpm (App.step st ev), App.bpmInput (App.step st ev))
  = match ev with
    | App.InputChange value =>
        (match JS.parseInt value with
         | JS.Int n =>
             if (MIN_BPM <=? n) && (n <=? MAX_BPM) then n else App.bpm st
         | _ => App.bpm st
         end, value)
    | App.InputBlur =>
        blur_outcome (JS.parseInt (App.bpmInput st))
          (App.bpm st, App.bpmInput st)
    | App.SliderChange v | App.Preset v => (v, JS.String_of v)
    | _ => (App.bpm st, App.bpmInput st)
    end.
Proof.
  destruct ev; cbn [App.step].
  - unfold App.start. destruct (App.audioReady st); [|reflexivity].
    rewrite (proj1 (commit_react _)), (proj1 (proj2 (commit_react _))).
    reflexivity.
  - unfold App.stop.
    rewrite (proj1 (commit_react _)), (proj1 (proj2 (commit_react _))).
    reflexivity.
  - unfold App.fire, App.tick. destruct (existsb _ _); [|reflexivity].
    rewrite (proj1 (commit_react _)), (proj1 (proj2 (commit_react _))).
    destruct (App.audioReady st); reflexivity.
  - unfold App.animationFrame. destruct (App.anim _); reflexivity.
  - destruct (handleInputChange_sets value st) as [-> ->]. reflexivity.
  - apply handleInputBlur_outcome.
  - unfold App.handleSliderChange.
    rewrite (proj1 (commit_react _)), (proj1 (proj2 (commit_react _))).
    reflexivity.
  - unfold App.handleSliderChange.
    rewrite (proj1 (commit_react _)), (proj1 (proj2 (commit_react _))).
    reflexivity.
  - unfold App.resize.
    rewrite (proj1 (commit_react _)), (proj1 (proj2 (commit_react _))).
    reflexivity.
  - reflexivity.
Qed.

(** The beat counter and the audio graph after an event. *)
Lemma step_beat_audio (st : App.State) (ev : App.Event) :
  App.beat (App.step st ev)
  = App.beat st + (if plays st ev then 1 else 0) /\
  App.audio (App.browser (App.step st ev))
  = if plays st ev
    then Audio.createHeartbeatSound (App.currentTime (App.browser st))
           :: App.audio (App.browser st)
    else App.audio (App.browser st).
Proof.
  destruct ev; cbn [App.step plays];
    try (unfold App.stop, App.handleInputChange, App.handleInputBlur,
           App.handleSliderChange, App.resize;
         rewrite (proj1 (proj2 (proj2 (proj2 (commit_react _))))),
           (proj1 (commit_browser _)), Z.add_0_r;
         repeat match goal with
                | |- context [match ?x with _ => _ end] => destruct x
                end; split; reflexivity).
  - unfold App.start. destruct (App.audioReady st).
    + rewrite (proj1 (proj2 (proj2 (proj2 (commit_react _))))),
        (proj1 (commit_browser _)). split; reflexivity.
    + rewrite Z.add_0_r. split; reflexivity.
  - unfold App.fire, App.tick. destruct (existsb _ _); cbn [andb].
    + rewrite (proj1 (proj2 (proj2 (proj2 (commit_react _))))),
        (proj1 (commit_browser _)).
      destruct (App.audioReady st); rewrite ?Z.add_0_r; split; reflexivity.
    + rewrite Z.add_0_r. split; reflexivity.
  - unfold App.animationFrame. rewrite Z.add_0_r.
    destruct (App.anim _); split; reflexivity.
  - rewrite Z.add_0_r. split; reflexivity.
Qed.

Lemma step_isPlaying (st : App.State) (ev : App.Event) :
  App.isPlaying (App.step st ev)
  = match ev with
    | App.Start => App.audioReady st || App.isPlaying st
    | App.Stop => false
    | _ => App.isPlaying st
    end.
Proof.
  destruct ev; cbn [App.step];
    try (unfold App.stop, App.handleInputChange, App.handleInputBlur,
           App.handleSliderChange, App.resize;
         rewrite (proj1 (proj2 (proj2 (commit_react _))));
         repeat match goal with
                | |- context [match ?x with _ => _ end] => destruct x
                end; reflexivity).
  - unfold App.start. destruct (App.audioReady st); [|reflexivity].
    rewrite (proj1 (proj2 (proj2 (commit_react _)))). reflexivity.
  - unfold App.fire, App.tick. destruct (existsb _ _); [|reflexivity].
    rewrite (proj1 (proj2 (proj2 (commit_react _)))).
    destruct (App.audioReady st); reflexivity.
  - unfold App.animationFrame. destruct (App.anim _); reflexivity.
  - reflexivity.
Qed.

(** The first version. *)
Lemma effect_frame (st : Legacy.State) :
  Legacy.audio (Legacy.effect st) = Legacy.audio st /\
  Legacy.currentTime (Legacy.effect st) = Legacy.currentTime st /\
  Legacy.ctx (Legacy.effect st) = Legacy.ctx st.
Proof.
  unfold Legacy.effect, Legacy.arm, Legacy.clearCurrent.
  destruct (_ && _); [repeat split|].
  destruct (Legacy.on st); cbn; [|repeat split].
  destruct (Legacy.iv st); cbn; repeat split.
Qed.

Lemma step_bpm_text_jsx (st : Legacy.State) (ev : Legacy.Event) :
  (Legacy.bpm (Legacy.step st ev), Legacy.inp (Legacy.step st ev))
  = match ev with
    | Legacy.InputChange value =>
        (match JS.parseInt value with
         | JS.Int n =>
             if (MIN_BPM <=? n) && (n <=? MAX_BPM) then n else Legacy.bpm st
         | _ => Legacy.bpm st
         end, value)
    | Legacy.InputBlur =>
        blur_outcome (JS.parseInt (Legacy.inp st))
          (Legacy.bpm st, Legacy.inp st)
    | Legacy.SliderChange v | Legacy.Preset v => (v, JS.String_of v)
    | _ => (Legacy.bpm st, Legacy.inp st)
    end.
Proof.
  destruct ev; cbn [Legacy.step].
  - unfold Legacy.start.
    rewrite (proj1 (effect_react _)), (proj1 (proj2 (effect_react _))).
    cbn. rewrite (proj1 (clearCurrent_frame _)).
    unfold Legacy.clearCurrent. destruct (Legacy.iv _); reflexivity.
  - unfold Legacy.stop.
    rewrite (proj1 (effect_react _)), (proj1 (proj2 (effect_react _))).
    destruct (Legacy.iv st); reflexivity.
  - unfold Legacy.fire. destruct (find _ _) as [t|]; [|reflexivity].
    destruct (Legacy.callback t); [|destruct (Legacy.ctx st)];
      rewrite ?(proj1 (effect_react _)), ?(proj1 (proj2 (effect_react _)));
      reflexivity.
  - destruct (onChange_sets value st) as [-> ->]. reflexivity.
  - apply onBlur_outcome.
  - unfold Legacy.onSlider.
    rewrite (proj1 (effect_react _)), (proj1 (proj2 (effect_react _))).
    reflexivity.
  - unfold Legacy.onSlider.
    rewrite (proj1 (effect_react _)), (proj1 (proj2 (effect_react _))).
    reflexivity.
  - reflexivity.
Qed.

Lemma clearCurrent_rest (st : Legacy.State) :
  Legacy.beat (Legacy.clearCurrent st) = Legacy.beat st /\
  Legacy.audio (Legacy.clearCurrent st) = Legacy.audio st /\
  Legacy.currentTime (Legacy.clearCurrent st) = Legacy.currentTime st /\
  Legacy.inp (Legacy.clearCurrent st) = Legacy.inp st /\
  Legacy.ctx (Legacy.clearCurrent st) = Legacy.ctx st.
Proof.
  unfold Legacy.clearCurrent. destruct (Legacy.iv st); repeat split.
Qed.

Lemma step_beat_audio_jsx (st : Legacy.State) (ev : Legacy.Event) :
  Legacy.beat (Legacy.step st ev)
  = Legacy.beat st + (if plays_jsx st ev then 1 else 0) /\
  Legacy.audio (Legacy.step st ev)
  = if plays_jsx st ev
    then Audio.createHeartbeatSound_jsx (Legacy.currentTime st)
           :: Legacy.audio st
    else Legacy.audio st.
Proof.
  destruct ev; cbn [Legacy.step plays_jsx];
    try (unfold Legacy.onChange, Legacy.onBlur, Legacy.onSlider;
         rewrite (proj2 (proj2 (proj2 (effect_react _)))),
           (proj1 (effect_frame _)), Z.add_0_r;
         repeat match goal with
                | |- context [match ?x with _ => _ end] => destruct x
                end; split; reflexivity).
  - unfold Legacy.start.
    rewrite (proj2 (proj2 (proj2 (effect_react _)))), (proj1 (effect_frame _)).
    cbn. destruct (clearCurrent_rest (Legacy.with_ctx true st))
      as (-> & -> & -> & _). split; reflexivity.
  - unfold Legacy.stop.
    rewrite (proj2 (proj2 (proj2 (effect_react _)))), (proj1 (effect_frame _)).
    rewrite Z.add_0_r. destruct (Legacy.iv st); split; reflexivity.
  - unfold Legacy.fire. destruct (find _ _) as [t|];
      [|rewrite Z.add_0_r; split; reflexivity].
    destruct (Legacy.callback t); [|destruct (Legacy.ctx st)];
      rewrite ?(proj2 (proj2 (proj2 (effect_react _)))),
        ?(proj1 (effect_frame _)), ?Z.add_0_r; split; reflexivity.
  - rewrite Z.add_0_r. split; reflexivity.
Qed.

(** ** The beat counter and the sounds *)

(** In every state either version can reach, the beat counter is the number
    of beats whose sound has been scheduled; an event never lowers it and
    raises it by one at most. *)
Theorem beat_counts_sounds (st : App.State) (lst : Legacy.State) :
  App.reachable st -> Legacy.reachable lst ->
  (App.beat st = Z.of_nat (List.length (App.audio (App.browser st))) /\
   forall ev, App.beat st <= App.beat (App.step st ev) <= App.beat st + 1) /\
  (Legacy.beat lst = Z.of_nat (List.length (Legacy.audio lst)) /\
   forall ev,
     Legacy.beat lst <= Legacy.beat (Legacy.step lst ev)
     <= Legacy.beat lst + 1).
Proof.
  intros Hr Hl. split; split.
  - clear Hl. induction Hr as [|s ev _ IH]; [reflexivity|].
    destruct (step_beat_audio s ev) as [-> ->].
    destruct (plays s ev); cbn [List.length]; lia.
  - intros ev. rewrite (proj1 (step_beat_audio st ev)).
    destruct (plays st ev); lia.
  - clear Hr. induction Hl as [|s ev _ IH]; [reflexivity|].
    destruct (step_beat_audio_jsx s ev) as [-> ->].
    destruct (plays_jsx s ev); cbn [List.length]; lia.
  - intros ev. rewrite (proj1 (step_beat_audio_jsx lst ev)).
    destruct (plays_jsx lst ev); lia.
Qed.

Lemma beat_counts_sounds_witness :
  App.beat (App.start App.init)
  = Z.of_nat (List.length (App.audio (App.browser (App.start App.init)))).
Proof.
  exact (proj1 (proj1 (beat_counts_sounds (App.start App.init) Legacy.init
           (App.reachable_step _ App.Start App.reachable_init)
           Legacy.reachable_init))).
Defined.

(** ** The BPM stays in range *)

Lemma blur_outcome_in_range (parsed : JS.Number) (b : Z) (t : string) :
  MIN_BPM <= b <= MAX_BPM ->
  MIN_BPM <= fst (blur_outcome parsed (b, t)) <= MAX_BPM.
Proof.
  intros H. unfold blur_outcome. destruct parsed as [|[|]|n];
    try (cbn [fst]; unfold MIN_BPM, MAX_BPM; lia).
  destruct (_ && _); [exact H|]. cbn [fst].
  unfold clamp, MIN_BPM, MAX_BPM. lia.
Qed.

Lemma typed_in_range (value : string) (b : Z) :
  MIN_BPM <= b <= MAX_BPM ->
  MIN_BPM
  <= match JS.parseInt value with
     | JS.Int n => if (MIN_BPM <=? n) && (n <=? MAX_BPM) then n else b
     | _ => b
     end <= MAX_BPM.
Proof.
  intros H. destruct (JS.parseInt value) as [|[|]|n]; [exact H..|].
  destruct (_ && _) eqn:E; [|exact H].
  apply andb_true_iff in E as [E1 E2]. lia.
Qed.

Lemma preset_in_range (v : Z) :
  In v (map snd App.BPM_PRESETS) -> MIN_BPM <= v <= MAX_BPM.
Proof.
  unfold MIN_BPM, MAX_BPM. cbn.
  intros [H|[H|[H|[H|[H|[]]]]]]; subst; lia.
Qed.

Lemma operated_bpm (st : App.State) :
  operated st -> MIN_BPM <= App.bpm st <= MAX_BPM.
Proof.
  induction 1 as [|s ev _ IH Hev].
  - unfold MIN_BPM, MAX_BPM. cbn. lia.
  - pose proof (f_equal fst (step_bpm_text s ev)) as E. cbn [fst] in E.
    rewrite E. destruct ev; cbn [fst admissible] in *;
      try exact IH; try exact Hev.
    + apply typed_in_range, IH.
    + apply blur_outcome_in_range, IH.
    + apply preset_in_range, Hev.
Qed.

Lemma operated_jsx_bpm (st : Legacy.State) :
  operated_jsx st -> MIN_BPM <= Legacy.bpm st <= MAX_BPM.
Proof.
  induction 1 as [|s ev _ IH Hev].
  - unfold MIN_BPM, MAX_BPM. cbn. lia.
  - pose proof (f_equal fst (step_bpm_text_jsx s ev)) as E. cbn [fst] in E.
    rewrite E. destruct ev; cbn [fst admissible_jsx] in *;
      try exact IH; try exact Hev.
    + apply typed_in_range, IH.
    + apply blur_outcome_in_range, IH.
    + apply preset_in_range, Hev.
Qed.

Lemma operated_reachable (st : App.State) : operated st -> App.reachable st.
Proof.
  induction 1 as [|s ev _ IH _]; [constructor|].
  apply App.reachable_step, IH.
Qed.


(** Under the events a browser can deliver, the BPM of either version never
    leaves [[MIN_BPM, MAX_BPM]]: typing only sets it to a number in range, a
    blur clamps, and the slider and the presets offer nothing else.  Without
    the restriction on events there is nothing to prove: [setBpm] takes what
    the slider reports. *)
Theorem bpm_stays_in_range (st : App.State) (lst : Legacy.State) :
  operated st -> operated_jsx lst ->
  MIN_BPM <= App.bpm st <= MAX_BPM /\ MIN_BPM <= Legacy.bpm lst <= MAX_BPM.
Proof.
  intros Hs Hl. split; [apply operated_bpm, Hs | apply operated_jsx_bpm, Hl].
Qed.

Lemma bpm_stays_in_range_witness :
  MIN_BPM <= App.bpm (App.step App.init (App.InputChange "999")) <= MAX_BPM.
Proof.
  exact (proj1 (bpm_stays_in_range _ Legacy.init
           (operated_step _ (App.InputChange "999") operated_init I)
           operated_jsx_init)).
Defined.

(** ** The text of the input and the BPM *)







(** ** Leaving the field twice *)






(** ** While stopped *)

Lemma settled_stopped (st : App.State) :
  settled st -> App.isPlaying st = false ->
  App.timers (App.browser st) = [].
Proof.
  intros (Hd & _ & _ & H) Hp. unfold timer_inv in H.
  rewrite Hd, Hp in H. cbn in H.
  destruct (App.cleanup _); [contradiction | exact H].
Qed.

Lemma settled_jsx_stopped (st : Legacy.State) :
  settled_jsx st -> Legacy.on st = false -> Legacy.timers st = [].
Proof.
  intros [_ H] Hp. unfold armed in H.
  destruct (Legacy.iv st); [destruct H; congruence | apply H].
Qed.

Lemma EKG_effect_laid_out (b : Z) (p : bool) (e : App.EKG) :
  laid_out (App.EKG_effect b p e) = laid_out e.
Proof. unfold laid_out. rewrite EKG_effect_dimensions. reflexivity. Qed.

(** What the animation effect makes of the pending frame. *)
Lemma EKG_effect_anim (b : Z) (p : bool) (e : App.EKG) :
  App.anim e
  = (if snd (fst (App.ekgDeps e)) && App.ekgCleanup e
     then Some (fst (fst (App.ekgDeps e))) else None) ->
  (App.ekgDeps e = (b, p, App.dimId e) -> App.ekgCleanup e = laid_out e) ->
  App.ekgCleanup (App.EKG_effect b p e) = laid_out e /\
  App.anim (App.EKG_effect b p e)
  = (if p && laid_out e then Some b else None).
Proof.
  intros Ha Hc. unfold App.EKG_effect, App.draw.
  destruct (App.ekgDeps_eqb _ _) eqn:E.
  - apply ekgDeps_eqb_true_iff in E. symmetry in E.
    specialize (Hc E). rewrite Ha, E, Hc. cbn [fst snd]. auto.
  - assert ((if App.ekgCleanup e then None else App.anim e) = None) as Hp.
    { destruct (App.ekgCleanup e); [reflexivity|].
      rewrite Ha, andb_false_r. reflexivity. }
    unfold laid_out. destruct (_ =? 0)%float; cbn.
    + rewrite andb_false_r. auto.
    + destruct p; cbn; auto.
Qed.

Lemma commit_anim_inv (st st0 : App.State) :
  settled st -> anim_inv st ->
  App.anim (App.ekg st0) = App.anim (App.ekg st) ->
  App.ekgCleanup (App.ekg st0) = App.ekgCleanup (App.ekg st) ->
  App.ekgDeps (App.ekg st0) = App.ekgDeps (App.ekg st) ->
  (App.dimId (App.ekg st0) = App.dimId (App.ekg st) ->
   laid_out (App.ekg st0) = laid_out (App.ekg st)) ->
  anim_inv (App.commit st0).
Proof.
  intros (_ & He & _ & _) [Hc Ha] E1 E2 E3 E4. unfold anim_inv.
  rewrite (proj2 (proj2 (commit_parts st0))), EKG_effect_laid_out.
  rewrite (proj1 (commit_react st0)), (proj1 (proj2 (proj2 (commit_react st0)))).
  destruct (EKG_effect_anim (App.bpm st0) (App.isPlaying st0) (App.ekg st0))
    as [H1 H2].
  - rewrite E1, E2, E3, He, Ha, Hc. reflexivity.
  - rewrite E2, E3, He. intros [= _ _ Hd]. rewrite Hc. symmetry.
    apply E4. symmetry. exact Hd.
  - rewrite H1, H2. auto.
Qed.

Lemma step_anim_inv (st : App.State) (ev : App.Event) :
  settled st -> anim_inv st -> anim_inv (App.step st ev).
Proof.
  intros Hs Hi. pose proof Hs as (_ & He & Ha & _).
  destruct ev; cbn [App.step].
  - unfold App.start. rewrite Ha. apply (commit_anim_inv st); auto.
  - apply (commit_anim_inv st); auto.
  - unfold App.fire, App.tick. destruct (existsb _ _); [|exact Hi].
    rewrite Ha. apply (commit_anim_inv st); auto.
  - unfold App.animationFrame.
    destruct (App.anim (App.ekg st)) as [b|] eqn:E; [|exact Hi].
    destruct Hi as [Hc Hp]. rewrite E in Hp.
    destruct (App.isPlaying st && laid_out (App.ekg st)) eqn:Hl;
      [|discriminate Hp].
    injection Hp as ->. unfold anim_inv, laid_out in *. cbn.
    rewrite Hl. auto.
  - unfold App.handleInputChange.
    destruct (JS.parseInt value) as [|[|]|n]; try destruct (_ && _);
      apply (commit_anim_inv st); auto.
  - unfold App.handleInputBlur.
    destruct (JS.parseInt _) as [|[|]|n]; try destruct (n <? _);
      try destruct (_ <? n); apply (commit_anim_inv st); auto.
  - apply (commit_anim_inv st); auto.
  - apply (commit_anim_inv st); auto.
  - apply (commit_anim_inv st); auto.
    cbn. intros H. exfalso. apply (n_Sn _ (eq_sym H)).
  - exact Hi.
Qed.

Lemma reachable_anim_inv (st : App.State) : App.reachable st -> anim_inv st.
Proof.
  induction 1 as [|s ev Hr IH].
  - split; reflexivity.
  - apply step_anim_inv; [apply reachable_settled, Hr | exact IH].
Qed.

(** While stopped, in every state either version can reach, no interval
    timer is active, so that a timer callback still in flight does nothing;
    in the current version no animation frame is pending either; and
    changing the BPM arms no timer, requests no frame and plays nothing. *)
Theorem stopped_is_idle (st : App.State) (lst : Legacy.State) :
  App.reachable st -> Legacy.reachable lst ->
  (App.isPlaying st = false ->
   App.timers (App.browser st) = [] /\
   App.anim (App.ekg st) = None /\
   (forall i, App.fire i st = st) /\
   forall v,
     App.timers (App.browser (App.handleSliderChange v st)) = [] /\
     App.anim (App.ekg (App.handleSliderChange v st)) = None /\
     App.audio (App.browser (App.handleSliderChange v st))
     = App.audio (App.browser st)) /\
  (Legacy.on lst = false ->
   Legacy.timers lst = [] /\
   (forall i, Legacy.fire i lst = lst) /\
   forall v,
     Legacy.timers (Legacy.onSlider v lst) = [] /\
     Legacy.audio (Legacy.onSlider v lst) = Legacy.audio lst).
Proof.
  intros Hs Hl. split; intros Hp.
  - assert (forall s, App.reachable s -> App.isPlaying s = false ->
              App.timers (App.browser s) = [] /\ App.anim (App.ekg s) = None)
      as H.
    { intros s Hr Hx. split.
      - apply settled_stopped; [apply reachable_settled, Hr | exact Hx].
      - destruct (reachable_anim_inv s Hr) as [_ ->]. rewrite Hx.
        reflexivity. }
    destruct (H st Hs Hp) as [Ht Ha]. repeat split; try assumption.
    + intros i. unfold App.fire. rewrite Ht. reflexivity.
    + apply (H (App.step st (App.SliderChange v))).
      * apply App.reachable_step, Hs.
      * rewrite step_isPlaying. exact Hp.
    + apply (H (App.step st (App.SliderChange v))).
      * apply App.reachable_step, Hs.
      * rewrite step_isPlaying. exact Hp.
    + apply (proj2 (step_beat_audio st (App.SliderChange v))).
  - pose proof (settled_jsx_stopped lst (reachable_settled_jsx lst Hl) Hp)
      as Ht.
    repeat split; try assumption.
    + intros i. unfold Legacy.fire. rewrite Ht. reflexivity.
    + apply settled_jsx_stopped.
      * apply reachable_settled_jsx,
          (Legacy.reachable_step _ (Legacy.SliderChange v)), Hl.
      * unfold Legacy.onSlider.
        rewrite (proj1 (proj2 (proj2 (effect_react _)))). exact Hp.
    + apply (proj2 (step_beat_audio_jsx lst (Legacy.SliderChange v))).
Qed.

Lemma stopped_is_idle_witness :
  App.timers (App.browser (App.stop (App.start App.init))) = [].
Proof.
  refine (proj1 (proj1 (stopped_is_idle (App.stop (App.start App.init))
                          Legacy.init _ Legacy.reachable_init) _)).
  - exact (App.reachable_step _ App.Stop
             (App.reachable_step _ App.Start App.reachable_init)).
  - exact (proj1 (proj2 (proj2 (stop_frame (App.start App.init))))).
Defined.

(** ** The animation frame *)

(** In every state the current version can reach, while the component plays
    on a canvas with a width a frame is pending whose [draw] was made with
    the current BPM, also right after the BPM has changed; that frame
    advances the scroll offset by 1.5 modulo the beat width of that BPM and
    requests the next one.  Otherwise no frame is pending, and an animation
    frame that still arrives changes nothing. *)
Theorem frame_draws_current_bpm (st : App.State) :
  App.reachable st ->
  (App.isPlaying st && laid_out (App.ekg st) = true ->
   App.anim (App.ekg st) = Some (App.bpm st) /\
   App.off (App.ekg (App.animationFrame st))
   = JS.fmod (App.off (App.ekg st) + 1.5) (Ekg.beatWidth (App.bpm st)) /\
   App.anim (App.ekg (App.animationFrame st)) = Some (App.bpm st)) /\
  (App.isPlaying st && laid_out (App.ekg st) = false ->
   App.anim (App.ekg st) = None /\ App.animationFrame st = st).
Proof.
  intros Hr. destruct (reachable_anim_inv st Hr) as [_ Ha].
  split; intros Hp; rewrite Hp in Ha.
  - split; [exact Ha|]. unfold App.animationFrame. rewrite Ha.
    split; reflexivity.
  - split; [exact Ha|]. unfold App.animationFrame. rewrite Ha. reflexivity.
Qed.

Lemma frame_draws_current_bpm_witness :
  App.anim (App.ekg (App.start (App.resize 300 56 App.init))) = Some 162.
Proof.
  refine (proj1 (proj1 (frame_draws_current_bpm
                          (App.start (App.resize 300 56 App.init)) _) _)).
  - exact (App.reachable_step _ App.Start
             (App.reachable_step _ (App.Resize 300 56) App.reachable_init)).
  - reflexivity.
Defined.

(** ** The beat interval across the range *)

Lemma Zrange_forallb2 (P : Z -> Z -> bool) (lo : Z) (n : nat) :
  forallb (fun a => forallb (P a) (Zrange lo n)) (Zrange lo n) = true ->
  forall a b,
    lo <= a < lo + Z.of_nat n -> lo <= b < lo + Z.of_nat n -> P a b = true.
Proof.
  intros H a b Ha Hb.
  apply (Zrange_forallb (P a) lo n); [|exact Hb].
  apply (Zrange_forallb (fun a => forallb (P a) (Zrange lo n)) lo n H a Ha).
Qed.

(** Two BPM values of the range never share a delay. *)
Lemma ms_injective (a b : Z) :
  MIN_BPM <= a <= MAX_BPM -> MIN_BPM <= b <= MAX_BPM -> a <> b ->
  Leibniz.eqb (Legacy.ms a) (Legacy.ms b) = false.
Proof.
  unfold MIN_BPM, MAX_BPM. intros Ha Hb Hab.
  pose proof (Zrange_forallb2
    (fun a b => (a =? b) || negb (Leibniz.eqb (Legacy.ms a) (Legacy.ms b)))
    30 191) as H.
  specialize (H ltac:(vm_compute; reflexivity) a b ltac:(lia) ltac:(lia)).
  apply orb_true_iff in H as [H|H]; [apply Z.eqb_eq in H; contradiction|].
  apply negb_true_iff, H.
Qed.

(** Over the integers of [[30, 220]] the delay of the beat timer decreases
    strictly as the BPM grows, from 2000 ms at 30 down to
    272.7272727272727 ms at 220, in binary64. *)
Theorem delay_decreases (a b : Z) :
  MIN_BPM <= a <= MAX_BPM -> MIN_BPM <= b <= MAX_BPM -> a < b ->
  (Legacy.ms b <? Legacy.ms a)%float = true /\
  (Legacy.ms MAX_BPM <=? Legacy.ms b)%float = true /\
  (Legacy.ms a <=? Legacy.ms MIN_BPM)%float = true /\
  Legacy.ms MIN_BPM = 2000%float /\
  Legacy.ms MAX_BPM = 272.7272727272727%float.
Proof.
  unfold MIN_BPM, MAX_BPM. intros Ha Hb Hab.
  pose proof (Zrange_forallb2
    (fun a b => negb (a <? b) || (Legacy.ms b <? Legacy.ms a)%float)
    30 191 ltac:(vm_compute; reflexivity) a b ltac:(lia) ltac:(lia)) as H.
  pose proof (Zrange_forallb
    (fun a => (Legacy.ms 220 <=? Legacy.ms a)%float
              && (Legacy.ms a <=? Legacy.ms 30)%float)
    30 191 ltac:(vm_compute; reflexivity)) as Hr.
  cbv beta in H. rewrite (proj2 (Z.ltb_lt a b) Hab) in H. cbn [negb orb] in H.
  pose proof (Hr a ltac:(lia)) as Hra. pose proof (Hr b ltac:(lia)) as Hrb.
  cbv beta in Hra, Hrb.
  apply andb_true_iff in Hra as [_ Hra]. apply andb_true_iff in Hrb as [Hrb _].
  repeat split; try assumption; vm_compute; reflexivity.
Qed.

Lemma delay_decreases_witness :
  (Legacy.ms 72 <? Legacy.ms 60)%float = true.
Proof.
  refine (proj1 (delay_decreases 60 72 _ _ _));
    unfold MIN_BPM, MAX_BPM; lia.
Defined.

(** ** Re-arming the timer *)

Lemma useInterval_fresh (d : option float) (h : App.Interval)
  (b : App.Browser) :
  fresh_ids b -> fresh_ids (snd (App.useInterval d h b)).
Proof.
  intros H. unfold App.useInterval.
  destruct (JS.Object_is _ _); [exact H|].
  assert (fresh_ids match App.cleanup h with
                    | Some i => App.clearInterval i b
                    | None => b
                    end) as H1.
  { destruct (App.cleanup h) as [i|]; [|exact H].
    intros t Ht. cbn in *. apply filter_In in Ht as [Ht _]. apply H, Ht. }
  destruct d as [ms|]; [|exact H1].
  intros t [<-|Ht]; cbn.
  - lia.
  - apply H1 in Ht. destruct (App.cleanup h); cbn in *; lia.
Qed.

Lemma commit_fresh (st st0 : App.State) :
  fresh_ids (App.browser st) ->
  App.timers (App.browser st0) = App.timers (App.browser st) ->
  App.nextTimer (App.browser st0) = App.nextTimer (App.browser st) ->
  fresh_ids (App.browser (App.commit st0)).
Proof.
  intros H Et En. rewrite (proj1 (proj2 (commit_parts st0))).
  apply useInterval_fresh. intros t Ht. rewrite Et in Ht. rewrite En.
  apply H, Ht.
Qed.

Lemma reachable_fresh (st : App.State) :
  App.reachable st -> fresh_ids (App.browser st).
Proof.
  induction 1 as [|s ev _ IH]; [intros t []|].
  destruct ev; cbn [App.step].
  - unfold App.start. destruct (App.audioReady s); [|exact IH].
    apply (commit_fresh s); auto.
  - apply (commit_fresh s); auto.
  - unfold App.fire, App.tick. destruct (existsb _ _); [|exact IH].
    destruct (App.audioReady s); apply (commit_fresh s); auto.
  - unfold App.animationFrame. destruct (App.anim _); exact IH.
  - unfold App.handleInputChange.
    destruct (JS.parseInt value) as [|[|]|n]; try destruct (_ && _);
      apply (commit_fresh s); auto.
  - unfold App.handleInputBlur.
    destruct (JS.parseInt _) as [|[|]|n]; try destruct (n <? _);
      try destruct (_ <? n); apply (commit_fresh s); auto.
  - apply (commit_fresh s); auto.
  - apply (commit_fresh s); auto.
  - apply (commit_fresh s); auto.
  - exact IH.
Qed.

(** While playing, under the events a browser can deliver, moving the slider
    (or pressing a preset) to another BPM clears the active timer and arms
    exactly one new timer, under an id never used before and with the delay
    of the new BPM; the callback of the cleared timer, should it still
    arrive, does nothing.  Setting the BPM it already has leaves the timer
    alone. *)
Theorem bpm_change_rearms (st : App.State) (v : Z) :
  operated st -> App.isPlaying st = true -> MIN_BPM <= v <= MAX_BPM ->
  (v <> App.bpm st ->
   App.timers (App.browser (App.handleSliderChange v st))
   = [{| App.id := App.nextTimer (App.browser st);
         App.period := Legacy.ms v |}] /\
   forall t, In t (App.timers (App.browser st)) ->
     App.fire (App.id t) (App.handleSliderChange v st)
     = App.handleSliderChange v st) /\
  (v = App.bpm st ->
   App.timers (App.browser (App.handleSliderChange v st))
   = App.timers (App.browser st)).
Proof.
  intros Hs Hp Hv.
  pose proof (operated_reachable st Hs) as Hr.
  pose proof (reachable_settled st Hr) as (Hd & _ & _ & Ht).
  pose proof (reachable_fresh st Hr) as Hf.
  pose proof (operated_bpm st Hs) as Hb.
  unfold App.handleSliderChange.
  set (st0 := App.with_bpmInput (JS.String_of v) (App.with_bpm v st)).
  assert (App.browser (App.commit st0)
          = snd (App.useInterval (App.delay true v) (App.interval st)
                   (App.browser st))) as E.
  { rewrite (proj1 (proj2 (commit_parts st0))). cbn. rewrite Hp.
    reflexivity. }
  rewrite Hp in Hd. unfold timer_inv in Ht. rewrite Hd in Ht. cbn in Ht.
  destruct (App.cleanup (App.interval st)) as [i|] eqn:Ec; [|contradiction].
  split.
  - intros Hne.
    assert (App.timers (App.browser (App.commit st0))
            = [{| App.id := App.nextTimer (App.browser st);
                  App.period := Legacy.ms v |}]) as Et.
    { rewrite E. unfold App.useInterval. rewrite Hd. cbn [App.delay JS.Object_is].
      change ((60 / JS.Z2F v) * 1000)%float with (Legacy.ms v).
      change ((60 / JS.Z2F (App.bpm st)) * 1000)%float
        with (Legacy.ms (App.bpm st)).
      rewrite (ms_injective v (App.bpm st) Hv Hb Hne), Ec. cbn.
      rewrite Ht. cbn. rewrite Nat.eqb_refl. reflexivity. }
    split; [exact Et|].
    intros t Hin. unfold App.fire. rewrite Et. cbn.
    pose proof (Hf t Hin) as Hlt.
    rewrite (proj2 (Nat.eqb_neq _ _)) by lia. reflexivity.
  - intros ->. rewrite E. unfold App.useInterval. rewrite Hd.
    rewrite (proj2 (Object_is_true_iff _ _) eq_refl). reflexivity.
Qed.

Lemma bpm_change_rearms_witness :
  App.timers (App.browser (App.handleSliderChange 100 (App.start App.init)))
  = [{| App.id := App.nextTimer (App.browser (App.start App.init));
        App.period := Legacy.ms 100 |}].
Proof.
  refine (proj1 (proj1 (bpm_change_rearms (App.start App.init) 100
                          (operated_step _ App.Start operated_init I) _ _)
                   _)).
  - exact (step_isPlaying App.init App.Start).
  - unfold MIN_BPM, MAX_BPM. lia.
  - pose proof (f_equal fst (step_bpm_text App.init App.Start)) as E.
    cbn [fst App.step] in E. rewrite E. discriminate.
Defined.

(** ** The audio graph of one beat *)

(** The sound of the current version releases what it builds: the four
    sources are started and stopped, each ends in [masterGain] after at most
    three connections, every node that was connected is disconnected by an
    [onended] handler, and [masterGain] itself never is.  The first version
    disconnected nothing, and routed each beat through a master gain of its
    own to the destination. *)
Theorem sound_releases_its_nodes (t : float) :
  (started (Audio.createHeartbeatSound t)
   = [Audio.osc1; Audio.oSub; Audio.nSrc; Audio.o2] /\
   (forall nd, In nd (started (Audio.createHeartbeatSound t)) ->
      sink 3 (Audio.createHeartbeatSound t) nd = Audio.masterGain /\
      Audio.stopTime nd (Audio.createHeartbeatSound t) <> None) /\
   (forall nd, In nd (wired (Audio.createHeartbeatSound t)) ->
      In nd (released (Audio.createHeartbeatSound t))) /\
   ~ In Audio.masterGain (released (Audio.createHeartbeatSound t))) /\
  (released (Audio.createHeartbeatSound_jsx t) = [] /\
   forall nd, In nd (started (Audio.createHeartbeatSound_jsx t)) ->
     sink 4 (Audio.createHeartbeatSound_jsx t) nd = Audio.destination).
Proof.
  split; [split; [reflexivity|split; [|split]]|split; [reflexivity|]].
  - cbn. intros nd [<-|[<-|[<-|[<-|[]]]]]; split;
      solve [reflexivity | discriminate].
  - cbn. intros nd H.
    repeat (destruct H as [<-|H]; [tauto|]). contradiction.
  - cbn. intros H.
    repeat (destruct H as [H|H]; [discriminate H|]). contradiction.
  - cbn. intros nd [<-|[<-|[<-|[<-|[]]]]]; reflexivity.
Qed.

(** Both versions schedule the same sound: after the two commands that set
    up its own master gain (at 0.7, the value of [AUDIO.MASTER_GAIN]), the
    first version issues, command for command and with the same values and
    times, what the current one issues apart from the [onended] handlers, on
    [master] where the current one uses [masterGain]. *)
Theorem versions_schedule_the_same_sound (t : float) :
  map reroute (skipn 2 (Audio.createHeartbeatSound_jsx t))
  = filter (fun c => negb (is_onended c)) (Audio.createHeartbeatSound t) /\
  firstn 2 (Audio.createHeartbeatSound_jsx t)
  = [ Audio.setValueAtTime Audio.master Audio.gain Audio.AUDIO.MASTER_GAIN t;
      Audio.connect Audio.master Audio.destination ].
Proof. split; reflexivity. Qed.

(** ** The noise buffer cache *)

Lemma eqb_refl_not_nan (x : float) : is_nan x = false -> (x =? x)%float = true.
Proof. unfold is_nan. intros H. apply negb_false_iff, H. Qed.

Lemma getNoiseBuffer_again (rate : float) (c : Noise.Cache) :
  is_nan rate = false ->
  Noise.getNoiseBuffer rate (snd (Noise.getNoiseBuffer rate c))
  = Noise.getNoiseBuffer rate c.
Proof.
  intros Hn. unfold Noise.getNoiseBuffer at 2 3.
  destruct (Noise.cachedNoiseBuffer c) as [b|] eqn:Eb.
  - destruct (negb _) eqn:E.
    + unfold Noise.getNoiseBuffer. cbn.
      rewrite (eqb_refl_not_nan rate Hn). reflexivity.
    + unfold Noise.getNoiseBuffer. cbn. rewrite Eb, E. reflexivity.
  - unfold Noise.getNoiseBuffer. cbn.
    rewrite (eqb_refl_not_nan rate Hn). reflexivity.
Qed.

Lemma beats_same_rate (rate : float) (n : nat) (c : Noise.Cache) :
  is_nan rate = false ->
  Noise.beats (repeat rate (S n)) c = snd (Noise.getNoiseBuffer rate c).
Proof.
  intros Hn. revert c. induction n as [|n IH]; intros c; [reflexivity|].
  change (Noise.beats (repeat rate (S (S n))) c)
    with (Noise.beats (repeat rate (S n))
            (snd (Noise.getNoiseBuffer rate c))).
  rewrite IH, getNoiseBuffer_again by exact Hn. reflexivity.
Qed.

(** For a sample rate that is a number: a second call of [getNoiseBuffer]
    returns the buffer of the first and leaves the cache as it is; any number
    of beats at that rate create one buffer at most; the buffer returned was
    made for the rate asked for, provided the cache was consistent, and the
    cache stays so; after the cache has been cleared the next call creates a
    buffer. *)
Theorem noise_buffer_is_reused (rate : float) (c : Noise.Cache) (n : nat) :
  is_nan rate = false ->
  Noise.getNoiseBuffer rate (snd (Noise.getNoiseBuffer rate c))
  = (fst (Noise.getNoiseBuffer rate c), snd (Noise.getNoiseBuffer rate c)) /\
  (Noise.created (Noise.beats (repeat rate n) c) <= S (Noise.created c))%nat /\
  (consistent c ->
   (Noise.sampleRate (fst (Noise.getNoiseBuffer rate c)) =? rate)%float
   = true /\
   consistent (snd (Noise.getNoiseBuffer rate c))) /\
  Noise.created (snd (Noise.getNoiseBuffer rate (Noise.clear c)))
  = S (Noise.created c).
Proof.
  intros Hn. split; [|split; [|split]].
  - rewrite getNoiseBuffer_again by exact Hn.
    destruct (Noise.getNoiseBuffer rate c); reflexivity.
  - destruct n as [|n]; [cbn; lia|].
    rewrite beats_same_rate by exact Hn. unfold Noise.getNoiseBuffer.
    destruct (Noise.cachedNoiseBuffer c); [destruct (negb _)|]; cbn; lia.
  - unfold consistent, Noise.getNoiseBuffer. intros Hc.
    destruct (Noise.cachedNoiseBuffer c) as [b|] eqn:Eb.
    + destruct (negb _) eqn:E; cbn.
      * split; [apply eqb_refl_not_nan, Hn | reflexivity].
      * rewrite Eb, Hc. split; [apply negb_false_iff, E | reflexivity].
    + cbn. split; [apply eqb_refl_not_nan, Hn | reflexivity].
  - reflexivity.
Qed.

Lemma noise_buffer_is_reused_witness :
  (Noise.created (Noise.beats (repeat 44100%float 5) Noise.empty) <= 1)%nat.
Proof.
  exact (proj1 (proj2 (noise_buffer_is_reused 44100%float Noise.empty 5
                         eq_refl))).
Defined.

(** ** Unlocking audio *)

Lemma dispatch_done (p : Unlock.Page) (e : string) :
  Unlock.listeners p = [] -> Unlock.dispatch p e = p.
Proof. intros H. unfold Unlock.dispatch. rewrite H. reflexivity. Qed.

Lemma dispatch_all_done (p : Unlock.Page) (es : list string) :
  Unlock.listeners p = [] -> fold_left Unlock.dispatch es p = p.
Proof.
  intros H. induction es as [|e es IH]; [reflexivity|].
  cbn. rewrite dispatch_done by exact H. exact IH.
Qed.

Lemma dispatch_armed (s : Unlock.ContextState) (es : list string) :
  let p := fold_left Unlock.dispatch es
             {| Unlock.state := s; Unlock.listeners := Unlock.events;
                Unlock.warmUps := 0 |} in
  (existsb (fun e => existsb (String.eqb e) Unlock.events) es = true /\
   Unlock.warmUps p = 1%nat /\ Unlock.listeners p = []) \/
  (existsb (fun e => existsb (String.eqb e) Unlock.events) es = false /\
   Unlock.warmUps p = 0%nat /\ Unlock.listeners p = Unlock.events).
Proof.
  cbv zeta. induction es as [|e es IH]; [right; repeat split|].
  change (existsb (fun e => existsb (String.eqb e) Unlock.events) (e :: es))
    with (existsb (String.eqb e) Unlock.events
          || existsb (fun e => existsb (String.eqb e) Unlock.events) es).
  change (fold_left Unlock.dispatch (e :: es) ?p)
    with (fold_left Unlock.dispatch es (Unlock.dispatch p e)).
  unfold Unlock.dispatch at 2 4 6 8. cbn [Unlock.listeners].
  destruct (existsb (String.eqb e) Unlock.events) eqn:E.
  - left. rewrite dispatch_all_done by reflexivity.
    split; [reflexivity|split; reflexivity].
  - exact IH.
Qed.

(** [unlockAudioContext] on a context that is not suspended registers
    nothing, so no event ever plays the warm-up.  On a suspended context the
    warm-up is played exactly once, at the first touchend, mousedown or
    keydown, after which no listener of it is left; until then the three
    listeners stay, and other events (touchstart among them) do nothing. *)
Theorem unlock_runs_once (s : Unlock.ContextState) (es : list string) :
  let p := fold_left Unlock.dispatch es
             (Unlock.unlockAudioContext (Unlock.fresh s)) in
  (s <> Unlock.suspended ->
   Unlock.warmUps p = 0%nat /\ Unlock.listeners p = []) /\
  (s = Unlock.suspended ->
   if existsb (fun e => existsb (String.eqb e) Unlock.events) es
   then Unlock.warmUps p = 1%nat /\ Unlock.listeners p = []
   else Unlock.warmUps p = 0%nat /\ Unlock.listeners p = Unlock.events) /\
  existsb (String.eqb "touchstart") Unlock.events = false.
Proof.
  cbv zeta. split; [|split; [|reflexivity]].
  - intros Hs. unfold Unlock.unlockAudioContext, Unlock.fresh.
    cbn [Unlock.state].
    destruct s; [contradiction|..];
      rewrite dispatch_all_done by reflexivity; split; reflexivity.
  - intros ->. unfold Unlock.unlockAudioContext, Unlock.fresh.
    cbn [Unlock.state Unlock.listeners Unlock.warmUps app].
    destruct (dispatch_armed Unlock.suspended es) as [(-> & H)|(-> & H)];
      exact H.
Qed.

(** ** The visual beat over the whole range *)

Lemma changes_le_length (l : list Z) :
  (changes l <= Nat.pred (List.length l))%nat.
Proof.
  induction l as [|a [|b l] IH]; [cbn; lia..|].
  change (changes (a :: b :: l))
    with (Nat.add (if a =? b then 0%nat else 1%nat) (changes (b :: l))).
  cbn [List.length Nat.pred] in *. destruct (a =? b); lia.
Qed.

(** For every BPM of the range, over any run of consecutive audio beats that
    spans at most one second the visual beat changes at most three times.
    Up to 180 BPM the visual beat is the beat counter itself; above, it is
    the counter halved, and changes at most twice. *)
Theorem visualBeat_capped (bpm b : Z) (m : nat) :
  MIN_BPM <= bpm <= MAX_BPM ->
  spans_within bpm m 1000 ->
  (changes (map (App.visualBeat bpm) (beats_from b m)) <= 3)%nat /\
  (bpm <= 180 ->
   map (App.visualBeat bpm) (beats_from b m) = beats_from b m) /\
  (180 < bpm ->
   (forall beat, App.visualBeat bpm beat = Z.div beat 2) /\
   (changes (map (App.visualBeat bpm) (beats_from b m)) <= 2)%nat).
Proof.
  intros Hr Hs. unfold spans_within, MIN_BPM, MAX_BPM in *.
  assert (forall l,
            map (App.visualBeat bpm) l
            = map (fun x => if 180 <? bpm then Z.div x 2 else x) l) as E.
  { intros l. apply map_ext. intros x.
    rewrite (visualBeat_range bpm x) by (unfold MIN_BPM, MAX_BPM; lia).
    destruct (180 <? bpm); reflexivity. }
  destruct (Z.ltb_spec 180 bpm) as [Hb|Hb].
  - destruct (halves_of_a_window b m) as [_ H2]; [lia|].
    rewrite E. split; [lia|split; [lia|]]. intros _. split; [|exact H2].
    intros beat.
    rewrite (visualBeat_range bpm beat) by (unfold MIN_BPM, MAX_BPM; lia).
    destruct (Z.ltb_spec 180 bpm); [reflexivity|lia].
  - rewrite E, map_id. split; [|split; [reflexivity|lia]].
    pose proof (changes_le_length (beats_from b m)) as Hc.
    unfold beats_from, Zrange in Hc |- *.
    rewrite length_map, length_seq in Hc. cbn [Nat.pred] in Hc. lia.
Qed.

Lemma visualBeat_capped_witness :
  (changes (map (App.visualBeat 180) (beats_from 1 3)) <= 3)%nat.
Proof.
  refine (proj1 (visualBeat_capped 180 1 3 _ _)).
  - unfold MIN_BPM, MAX_BPM. lia.
  - unfold spans_within. lia.
Defined.

(** ** The slider track *)

(** Over the range of the slider the filled part of the track goes from 0
    to 100 per cent, both reached exactly, and grows with every step of the
    BPM. *)
Theorem pct_fills_the_track (bpm : Z) :
  MIN_BPM <= bpm <= MAX_BPM ->
  (0 <=? App.pct bpm)%float = true /\
  (App.pct bpm <=? 100)%float = true /\
  (bpm < MAX_BPM -> (App.pct bpm <? App.pct (bpm + 1))%float = true) /\
  App.pct MIN_BPM = 0%float /\ App.pct MAX_BPM = 100%float.
Proof.
  intros H. unfold MIN_BPM, MAX_BPM in H.
  pose (ok := fun b : Z =>
    (0 <=? App.pct b)%float && (App.pct b <=? 100)%float
    && ((MAX_BPM <=? b) || (App.pct b <? App.pct (b + 1))%float)).
  assert (ok bpm = true) as Hok.
  { apply (Zrange_forallb ok 30 191); [vm_compute; reflexivity|lia]. }
  unfold ok in Hok.
  apply andb_true_iff in Hok as [Hok H3].
  apply andb_true_iff in Hok as [H1 H2].
  split; [exact H1|split; [exact H2|split; [|split; vm_compute; reflexivity]]].
  intros Hlt. apply orb_true_iff in H3 as [H3|H3]; [|exact H3].
  apply Z.leb_le in H3. lia.
Qed.

Lemma pct_fills_the_track_witness : (App.pct 125 <=? 100)%float = true.
Proof.
  refine (proj1 (proj2 (pct_fills_the_track 125 _))).
  unfold MIN_BPM, MAX_BPM. lia.
Defined.

(** ** Zones and presets *)

(** The zone changes from one BPM to the next exactly after 59, 100, 140 and
    170; the five presets lie in five different zones, so that every zone has
    its preset. *)
Theorem every_zone_has_a_preset (bpm : Z) :
  (getBpmZone bpm = getBpmZone (bpm + 1) <-> ~ In bpm [59; 100; 140; 170]) /\
  NoDup (map (fun p => getBpmZone (snd p)) App.BPM_PRESETS) /\
  In (getBpmZone bpm) (map (fun p => getBpmZone (snd p)) App.BPM_PRESETS) /\
  Legacy.P = App.BPM_PRESETS.
Proof.
  split; [|split; [|split; [|reflexivity]]].
  - unfold getBpmZone. cbn [In].
    destruct (Z.ltb_spec bpm 60), (Z.ltb_spec (bpm + 1) 60),
      (Z.leb_spec bpm 100), (Z.leb_spec (bpm + 1) 100),
      (Z.leb_spec bpm 140), (Z.leb_spec (bpm + 1) 140),
      (Z.leb_spec bpm 170), (Z.leb_spec (bpm + 1) 170);
      try lia; split; intros; try discriminate; try reflexivity; lia.
  - cbn. repeat constructor; cbn; intuition discriminate.
  - unfold getBpmZone. cbn.
    destruct (bpm <? 60); [tauto|]. destruct (bpm <=? 100); [tauto|].
    destruct (bpm <=? 140); [tauto|]. destruct (bpm <=? 170); tauto.
Qed.

(** ** The two versions side by side *)

Lemma step_currentTime (st : App.State) (ev : App.Event) :
  App.currentTime (App.browser (App.step st ev))
  = match ev with
    | App.Clock t => t
    | _ => App.currentTime (App.browser st)
    end.
Proof.
  destruct ev; cbn [App.step];
    try (unfold App.stop, App.handleInputChange, App.handleInputBlur,
           App.handleSliderChange, App.resize;
         rewrite (proj2 (commit_browser _));
         repeat match goal with
                | |- context [match ?x with _ => _ end] => destruct x
                end; reflexivity).
  - unfold App.start. destruct (App.audioReady st); [|reflexivity].
    rewrite (proj2 (commit_browser _)). reflexivity.
  - unfold App.fire, App.tick. destruct (existsb _ _); [|reflexivity].
    rewrite (proj2 (commit_browser _)).
    destruct (App.audioReady st); reflexivity.
  - unfold App.animationFrame. destruct (App.anim _); reflexivity.
  - reflexivity.
Qed.

Lemma step_on_ctx_time_jsx (st : Legacy.State) (ev : Legacy.Event) :
  Legacy.on (Legacy.step st ev)
  = match ev with
    | Legacy.Start => true
    | Legacy.Stop => false
    | _ => Legacy.on st
    end /\
  Legacy.ctx (Legacy.step st ev)
  = match ev with Legacy.Start => true | _ => Legacy.ctx st end /\
  Legacy.currentTime (Legacy.step st ev)
  = match ev with
    | Legacy.Clock t => t
    | _ => Legacy.currentTime st
    end.
Proof.
  destruct ev; cbn [Legacy.step];
    try (unfold Legacy.onChange, Legacy.onBlur, Legacy.onSlider;
         rewrite (proj1 (proj2 (proj2 (effect_react _)))),
           (proj1 (proj2 (effect_frame _))), (proj2 (proj2 (effect_frame _)));
         repeat match goal with
                | |- context [match ?x with _ => _ end] => destruct x
                end; repeat split; reflexivity).
  - unfold Legacy.start.
    rewrite (proj1 (proj2 (proj2 (effect_react _)))),
      (proj1 (proj2 (effect_frame _))), (proj2 (proj2 (effect_frame _))).
    cbn.
    destruct (clearCurrent_rest (Legacy.with_ctx true st))
      as (_ & _ & -> & _ & ->). repeat split; reflexivity.
  - unfold Legacy.stop.
    rewrite (proj1 (proj2 (proj2 (effect_react _)))),
      (proj1 (proj2 (effect_frame _))), (proj2 (proj2 (effect_frame _))).
    destruct (Legacy.iv st); repeat split; reflexivity.
  - unfold Legacy.fire. destruct (find _ _) as [t|]; [|repeat split].
    destruct (Legacy.callback t); [|destruct (Legacy.ctx st) eqn:E];
      rewrite ?(proj1 (proj2 (proj2 (effect_react _)))),
        ?(proj1 (proj2 (effect_frame _))), ?(proj2 (proj2 (effect_frame _)));
      repeat split; cbn; auto.
  - repeat split.
Qed.

(** The first version creates its audio context at the first [start]: it
    exists whenever the component plays. *)
Lemma reachable_ctx_jsx (st : Legacy.State) :
  Legacy.reachable st -> Legacy.on st = true -> Legacy.ctx st = true.
Proof.
  induction 1 as [|st ev _ IH]; [discriminate|].
  destruct (step_on_ctx_time_jsx st ev) as (-> & -> & _).
  destruct ev; auto; discriminate.
Qed.

Lemma periods_agree (st : App.State) (lst : Legacy.State) :
  settled st -> settled_jsx lst ->
  App.bpm st = Legacy.bpm lst -> App.isPlaying st = Legacy.on lst ->
  map App.period (App.timers (App.browser st))
  = map Legacy.period (Legacy.timers lst).
Proof.
  intros Hs Hl Hb Hp. destruct (Legacy.on lst) eqn:E.
  - destruct (settled_period st Hs Hp) as [i ->].
    destruct (settled_period_jsx lst Hl E) as (j & cb & ->).
    cbn. rewrite Hb. reflexivity.
  - rewrite (settled_stopped st Hs Hp), (settled_jsx_stopped lst Hl E).
    reflexivity.
Qed.

Lemma plays_agree (st : App.State) (lst : Legacy.State)
  (ev : App.Event) (ev' : Legacy.Event) :
  settled st -> Legacy.reachable lst -> paired st lst ev ev' ->
  plays st ev = plays_jsx lst ev'.
Proof.
  intros (_ & _ & Ha & _) Hl Hp.
  destruct ev, ev'; try contradiction; try reflexivity; cbn in *.
  - exact Ha.
  - rewrite Ha, andb_true_r, Hp.
    pose proof (reachable_settled_jsx lst Hl) as [_ Harm]. unfold armed in Harm.
    destruct (Legacy.iv lst) as [k|].
    + destruct Harm as (Hon & cb & ->). cbn.
      destruct (Nat.eqb k i0); cbn; [|reflexivity].
      destruct cb; [reflexivity|].
      symmetry. apply reachable_ctx_jsx; assumption.
    + destruct Harm as [_ ->]. reflexivity.
Qed.

(** The two versions behave alike.  From states that agree - the same BPM,
    text, playing flag and beat counter, the same audio clock, timers of the
    same periods, and beat for beat the sound of the same trigger time - the
    same user action, or a timer firing in each, leads to states that agree
    again.  An animation frame or a resize of the canvas, which the first
    version does not have as events, changes nothing of this. *)
Theorem versions_agree (st : App.State) (lst : Legacy.State)
  (ev : App.Event) (ev' : Legacy.Event) :
  App.reachable st -> Legacy.reachable lst ->
  corresponds st lst -> paired st lst ev ev' ->
  corresponds (App.step st ev) (Legacy.step lst ev') /\
  corresponds (App.step st App.AnimationFrame) lst /\
  (forall w h, corresponds (App.step st (App.Resize w h)) lst).
Proof.
  intros Hr Hl Hc Hp.
  pose proof (reachable_settled st Hr) as Hs.
  pose proof (reachable_settled_jsx lst Hl) as Hj.
  assert (forall e e', paired st lst e e' \/
            (e = App.AnimationFrame \/ exists w h, e = App.Resize w h) ->
          App.reachable (App.step st e) ->
          forall lst', (paired st lst e e' -> lst' = Legacy.step lst e') ->
            ((e = App.AnimationFrame \/ exists w h, e = App.Resize w h) ->
             lst' = lst) ->
            Legacy.reachable lst' ->
            corresponds (App.step st e) lst') as Main.
  2:{ split; [|split; [|intros w h]].
      - apply (Main ev ev'); [left; exact Hp| constructor; exact Hr | auto | |
                              constructor; exact Hl].
        intros [->|(w & h & ->)]; destruct ev'; contradiction.
      - apply (Main App.AnimationFrame Legacy.Start);
          [right; left; reflexivity | constructor; exact Hr | | auto |
           exact Hl].
        intros [].
      - apply (Main (App.Resize w h) Legacy.Start);
          [right; right; eauto | constructor; exact Hr | | auto | exact Hl].
        intros []. }
  intros e e' Hcase Hr' lst' Hstep Hstay Hl'.
  destruct Hc as (Hb & Ht & Ho & Hbeat & Htime & _ & Haud).
  pose proof (step_bpm_text st e) as E1.
  pose proof (step_isPlaying st e) as E2.
  destruct (step_beat_audio st e) as [E3 E4].
  pose proof (step_currentTime st e) as E5.
  assert (App.audioReady st = true) as Ha by apply Hs.
  assert (App.bpm (App.step st e) = Legacy.bpm lst' /\
          App.bpmInput (App.step st e) = Legacy.inp lst' /\
          App.isPlaying (App.step st e) = Legacy.on lst' /\
          App.beat (App.step st e) = Legacy.beat lst' /\
          App.currentTime (App.browser (App.step st e))
          = Legacy.currentTime lst' /\
          Forall2 same_beat (App.audio (App.browser (App.step st e)))
            (Legacy.audio lst')) as (R1 & R2 & R3 & R4 & R5 & R6).
  { destruct Hcase as [Hpair|Hquiet].
    - rewrite (Hstep Hpair).
      pose proof (step_bpm_text_jsx lst e') as F1.
      destruct (step_on_ctx_time_jsx lst e') as (F2 & _ & F5).
      destruct (step_beat_audio_jsx lst e') as [F3 F4].
      pose proof (plays_agree st lst e e' Hs Hl Hpair) as Hplay.
      rewrite E2, E3, E4, E5, F2, F3, F4, F5, <- Hplay, Ha.
      assert (App.bpm (App.step st e) = Legacy.bpm (Legacy.step lst e') /\
              App.bpmInput (App.step st e) = Legacy.inp (Legacy.step lst e'))
        as [-> ->].
      { assert ((App.bpm (App.step st e), App.bpmInput (App.step st e))
                = (Legacy.bpm (Legacy.step lst e'),
                   Legacy.inp (Legacy.step lst e'))) as Q.
        { rewrite E1, F1, Hb, Ht.
          destruct e, e'; try contradiction; cbn in Hpair; subst;
            reflexivity. }
        injection Q as -> ->. split; reflexivity. }
      split; [reflexivity|split; [reflexivity|]].
      split; [destruct e, e'; try contradiction; auto|].
      split; [rewrite Hbeat; reflexivity|].
      split; [destruct e, e'; try contradiction; cbn in Hpair; subst; auto|].
      destruct (plays st e); [|exact Haud].
      constructor; [|exact Haud].
      exists (App.currentTime (App.browser st)). rewrite Htime. auto.
    - rewrite (Hstay Hquiet).
      assert (plays st e = false) as Hplay
        by (destruct Hquiet as [->|(w & h & ->)]; reflexivity).
      rewrite E2, E3, E4, E5, Hplay, Z.add_0_r.
      assert (App.bpm (App.step st e) = App.bpm st /\
              App.bpmInput (App.step st e) = App.bpmInput st) as [-> ->].
      { assert ((App.bpm (App.step st e), App.bpmInput (App.step st e))
                = (App.bpm st, App.bpmInput st)) as Q
          by (rewrite E1; destruct Hquiet as [->|(w & h & ->)]; reflexivity).
        injection Q as -> ->. split; reflexivity. }
      destruct Hquiet as [->|(w & h & ->)]; repeat split; assumption. }
  repeat split; try assumption.
  apply periods_agree;
    [apply reachable_settled, Hr' | apply reachable_settled_jsx, Hl' |
     exact R1 | exact R3].
Qed.

Lemma versions_agree_witness :
  corresponds (App.step (App.step App.init (App.Preset 72)) App.Start)
    (Legacy.step Legacy.init Legacy.Start).
Proof.
  refine (proj1 (versions_agree (App.step App.init (App.Preset 72))
                   Legacy.init App.Start Legacy.Start _ _ _ _)).
  - apply App.reachable_step, App.reachable_init.
  - apply Legacy.reachable_init.
  - repeat split; constructor.
  - exact I.
Defined.
